(** * Development proxy of rofy-ai/nextjs-saas: a shallow embedding

    The server of [server/index.ts] fronts a supervised Next.js dev server.
    This file embeds its pure helpers ([shrinkError], [isNavigationRequest],
    [injectHeadTag]), the header rewriting of the [proxyRes] handler, the
    guard middleware, the [previewHost] middleware and the dev-server
    supervisor ([startDevServer], [stopDevServer], [restartDevServer]), and
    proves the properties the specification states about them.

    JavaScript strings are sequences of UTF-16 code units; they are modelled
    as [list N].  String literals of the source are written [js "..."]. *)

From Stdlib Require Import NArith ZArith List Bool Ascii String Lia.
From stdpp Require Import base list option gmap fin_maps.

(* ===================================================================== *)
(** ** JavaScript strings *)
(* ===================================================================== *)

Module JsString.

(** A string value: its UTF-16 code units. *)
Abbreviation jstring := (list N).

(** The code units of an ASCII literal of the source. *)
Definition js (s : string) : jstring :=
  List.map N_of_ascii (list_ascii_of_string s).

(** [a === b] on strings. *)
Definition str_eqb (a b : jstring) : bool := bool_decide (a = b).

(** Truthiness of a string ([Boolean(s)], [!s], [s || d]): only the empty
    string is falsy. *)
Definition truthy (s : jstring) : bool :=
  match s with
  | [] => false
  | _ :: _ => true
  end.

(** [s.startsWith(p)]. *)
Fixpoint startsWith (s p : jstring) {struct p} : bool :=
  match p with
  | [] => true
  | c :: p' =>
      match s with
      | [] => false
      | d :: s' => (c =? d)%N && startsWith s' p'
      end
  end.

(** [p] occurs in [s]. *)
Definition contains (s p : jstring) : Prop :=
  exists before after, s = before ++ p ++ after.

(** [s.includes(p)]: some position of [s] starts an occurrence of [p]. *)
Fixpoint includes (s p : jstring) : bool :=
  startsWith s p ||
  match s with
  | [] => false
  | _ :: s' => includes s' p
  end.

(** The leftmost occurrence of [p] in [s], as the text before it and the
    text after it ([s.indexOf(p)] and the two slices around the match). *)
Fixpoint search (s p : jstring) : option (jstring * jstring) :=
  if startsWith s p then Some ([], drop (length p) s)
  else match s with
       | [] => None
       | c :: s' =>
           match search s' p with
           | Some (before, after) => Some (c :: before, after)
           | None => None
           end
       end.

(** [GetSubstitution] of ECMA-262 for a string pattern (no captures): in
    the replacement text, [$$] is a dollar sign, [$&] the matched text,
    [$`] the text before the match, [$'] the text after it; any other
    dollar sign stands for itself. *)
Fixpoint GetSubstitution (matched before after rep : jstring) : jstring :=
  match rep with
  | [] => []
  | c :: rep' =>
      if (c =? 36)%N then
        match rep' with
        | d :: rep'' =>
            if (d =? 36)%N then 36%N :: GetSubstitution matched before after rep''
            else if (d =? 38)%N then matched ++ GetSubstitution matched before after rep''
            else if (d =? 96)%N then before ++ GetSubstitution matched before after rep''
            else if (d =? 39)%N then after ++ GetSubstitution matched before after rep''
            else c :: GetSubstitution matched before after rep'
        | [] => [c]
        end
      else c :: GetSubstitution matched before after rep'
  end.

(** [s.replace(p, rep)] with a string pattern: only the first occurrence is
    replaced; without an occurrence the string is returned as it is. *)
Definition replace (s p rep : jstring) : jstring :=
  match search s p with
  | Some (before, after) => before ++ GetSubstitution p before after rep ++ after
  | None => s
  end.

(** [s.split(sep)] for a separator of one code unit.  The result is never
    empty: the empty string splits into one empty piece. *)
Fixpoint split (sep : N) (s : jstring) : list jstring :=
  match s with
  | [] => [[]]
  | c :: s' =>
      if (c =? sep)%N then [] :: split sep s'
      else match split sep s' with
           | piece :: pieces => (c :: piece) :: pieces
           | [] => [[c]]
           end
  end.

(** [pieces.join(sep)]. *)
Fixpoint join (sep : jstring) (pieces : list jstring) : jstring :=
  match pieces with
  | [] => []
  | [piece] => piece
  | piece :: rest => piece ++ sep ++ join sep rest
  end.

End JsString.
Import JsString.

(* ===================================================================== *)
(** ** Regular expressions *)
(* ===================================================================== *)

(** The two patterns of [shrinkError] are built from character classes,
    sequencing and repetition.  [test] decides [/^r/.test(s)] with Brzozowski
    derivatives. *)
Module Regex.

Inductive regex : Type :=
  | Void                       (* matches nothing *)
  | Eps                        (* matches the empty string *)
  | Class (p : N -> bool)      (* one code unit of a class, or one literal *)
  | Seq (r1 r2 : regex)
  | Alt (r1 r2 : regex)
  | Star (r : regex).

(** [r+] *)
Definition Plus (r : regex) : regex := Seq r (Star r).
(** A literal code unit. *)
Definition Lit (c : N) : regex := Class (N.eqb c).

(** The strings a pattern matches in full. *)
Inductive matches : regex -> jstring -> Prop :=
  | m_eps : matches Eps []
  | m_class p c : p c = true -> matches (Class p) [c]
  | m_seq r1 r2 s1 s2 :
      matches r1 s1 -> matches r2 s2 -> matches (Seq r1 r2) (s1 ++ s2)
  | m_alt_l r1 r2 s : matches r1 s -> matches (Alt r1 r2) s
  | m_alt_r r1 r2 s : matches r2 s -> matches (Alt r1 r2) s
  | m_star_nil r : matches (Star r) []
  | m_star_app r s1 s2 :
      matches r s1 -> matches (Star r) s2 -> matches (Star r) (s1 ++ s2).

Fixpoint nullable (r : regex) : bool :=
  match r with
  | Void => false
  | Eps => true
  | Class _ => false
  | Seq r1 r2 => nullable r1 && nullable r2
  | Alt r1 r2 => nullable r1 || nullable r2
  | Star _ => true
  end.

Fixpoint deriv (c : N) (r : regex) : regex :=
  match r with
  | Void => Void
  | Eps => Void
  | Class p => if p c then Eps else Void
  | Seq r1 r2 =>
      if nullable r1 then Alt (Seq (deriv c r1) r2) (deriv c r2)
      else Seq (deriv c r1) r2
  | Alt r1 r2 => Alt (deriv c r1) (deriv c r2)
  | Star r1 => Seq (deriv c r1) (Star r1)
  end.

(** [/^r/.test(s)]: some prefix of [s] matches [r]. *)
Fixpoint test (r : regex) (s : jstring) : bool :=
  nullable r ||
  match s with
  | [] => false
  | c :: s' => test (deriv c r) s'
  end.

(** [\d] without the unicode flag: the ASCII digits. *)
Definition is_digit (c : N) : bool := (48 <=? c)%N && (c <=? 57)%N.

(** [\s]: the WhiteSpace and LineTerminator code points of ECMA-262. *)
Definition is_space (c : N) : bool :=
  ((9 <=? c)%N && (c <=? 13)%N)          (* TAB LF VT FF CR *)
  || (c =? 32)%N                         (* SPACE *)
  || (c =? 160)%N                        (* NO-BREAK SPACE *)
  || (c =? 5760)%N                       (* U+1680 *)
  || ((8192 <=? c)%N && (c <=? 8202)%N)  (* U+2000 .. U+200A *)
  || (c =? 8232)%N || (c =? 8233)%N      (* U+2028, U+2029 *)
  || (c =? 8239)%N                       (* U+202F *)
  || (c =? 8287)%N                       (* U+205F *)
  || (c =? 12288)%N                      (* U+3000 *)
  || (c =? 65279)%N.                     (* U+FEFF *)

End Regex.
Import Regex.

(* ===================================================================== *)
(** ** Text scrubber: [shrinkError] *)
(* ===================================================================== *)

(** The line feed, the separator of [text.split("\n")]. *)
Definition LF : N := 10.

(** The argument of [shrinkError]: a string or an [Error], of which the
    function reads [stack] and, failing that, [String(rawError)]. *)
Inductive rawError : Type :=
  | RawString (s : jstring)
  | RawError (stack : option jstring) (description : jstring).

(** [typeof rawError === "string" ? rawError : rawError.stack || String(rawError)] *)
Definition error_text (e : rawError) : jstring :=
  match e with
  | RawString s => s
  | RawError (Some st) d => if truthy st then st else d
  | RawError None d => d
  end.

(** [/^\s*\d+\s*\|/] *)
Definition re_numbered : regex :=
  Seq (Star (Class is_space))
      (Seq (Plus (Class is_digit)) (Seq (Star (Class is_space)) (Lit 124))).

(** [/^\s*>/] *)
Definition re_pointer : regex := Seq (Star (Class is_space)) (Lit 62).

(** The predicate of the [codeframe] filter. *)
Definition is_codeframe (l : jstring) : bool :=
  test re_numbered l || test re_pointer l.

(** [shrinkError].  The [hints] of the source are computed and never used,
    so they do not appear here. *)
Definition shrinkError (e : rawError) : jstring :=
  let text := error_text e in
  let lines := split LF text in
  let firstLine := hd [] lines in
  let codeframe := join [LF] (filter (fun l => is_codeframe l = true) lines) in
  join [LF; LF] (filter (fun s => truthy s = true) [firstLine; codeframe]).

(** A codeframe line, as the two patterns read: optional white space, a
    line number, optional white space and a pipe; or optional white space
    and a greater-than sign. *)
Definition codeframe_line (l : jstring) : Prop :=
  (exists ws ds ws' rest,
      l = ws ++ ds ++ ws' ++ [124%N] ++ rest /\
      Forall (fun c => is_space c = true) ws /\
      ds <> [] /\ Forall (fun c => is_digit c = true) ds /\
      Forall (fun c => is_space c = true) ws')
  \/
  (exists ws rest,
      l = ws ++ [62%N] ++ rest /\ Forall (fun c => is_space c = true) ws).

(** A stack-frame line: optional white space, then [at ...]. *)
Definition stack_frame_line (l : jstring) : Prop :=
  exists ws rest, l = ws ++ js "at " ++ rest /\ Forall (fun c => is_space c = true) ws.

(* ===================================================================== *)
(** ** Requests and headers *)
(* ===================================================================== *)

(** A header value of Node's [IncomingHttpHeaders]: a string, or an array of
    strings (Node only builds arrays for [set-cookie]). *)
Inductive header_value : Type :=
  | HStr (s : jstring)
  | HArr (l : list jstring).

(** [String(v)] *)
Definition String_of (v : header_value) : jstring :=
  match v with
  | HStr s => s
  | HArr l => join (js ",") l
  end.

(** [String(h[name] || '')]: an absent header and an empty one both read as
    the empty string. *)
Definition header_text (h : gmap jstring header_value) (name : jstring) : jstring :=
  match h !! name with
  | None => []
  | Some (HStr s) => if truthy s then s else []
  | Some (HArr l) => String_of (HArr l)
  end.

Record IncomingMessage : Type := {
  method : jstring;
  url : jstring;
  originalUrl : jstring;
  headers : gmap jstring header_value
}.

(** [isNavigationRequest] *)
Definition isNavigationRequest (req : IncomingMessage) : bool :=
  let h := headers req in
  let accept := header_text h (js "accept") in
  let dest := header_text h (js "sec-fetch-dest") in
  let mode := header_text h (js "sec-fetch-mode") in
  let site := header_text h (js "sec-fetch-site") in
  str_eqb (method req) (js "GET") &&
  includes accept (js "text/html") &&
  str_eqb dest (js "document") &&
  str_eqb mode (js "navigate") &&
  (str_eqb site (js "none") || str_eqb site (js "same-origin")
   || str_eqb site (js "cross-site")).

(** The navigation of the specification's examples. *)
Definition navigation_headers : gmap jstring header_value :=
  <[js "accept" := HStr (js "text/html")]>
    (<[js "sec-fetch-dest" := HStr (js "document")]>
       (<[js "sec-fetch-mode" := HStr (js "navigate")]>
          (<[js "sec-fetch-site" := HStr (js "same-origin")]> ∅))).

Definition navigation_request : IncomingMessage :=
  {| method := js "GET"; url := js "/"; originalUrl := js "/";
     headers := navigation_headers |}.

(* ===================================================================== *)
(** ** HTML injector: [injectHeadTag] *)
(* ===================================================================== *)

(** A text between double quotes. *)
Definition quoted (s : jstring) : jstring := 34%N :: s ++ [34%N].

(** The sentinel: [data-rofy="console-capture"]. *)
Definition marker : jstring := js "data-rofy=" ++ quoted (js "console-capture").

(** The script tag of the source, which carries the sentinel. *)
Definition tag : jstring :=
  js "<script type=" ++ quoted (js "module") ++
  js " src=" ++ quoted (js "https://preview.rezzo.dev/js/reviewer.js") ++
  js " " ++ marker ++ js " defer></script>".

Definition close_head : jstring := js "</head>".
Definition close_body : jstring := js "</body>".

Definition injectHeadTag (html : jstring) : jstring :=
  if includes html marker then html
  else if includes html close_head then replace html close_head (tag ++ close_head)
  else if includes html close_body then replace html close_body (tag ++ close_body)
  else html ++ [LF] ++ tag.

(* ===================================================================== *)
(** ** Session identity: the [previewHost] middleware *)
(* ===================================================================== *)

(** [req.headers.host || ''].  Node delivers [host] as one string; an array
    cannot occur and is read through [String] only to keep the function
    total. *)
Definition host_or_empty (req : IncomingMessage) : jstring :=
  header_text (headers req) (js "host").

(** [!previewHost]: [null] and the empty string are both falsy. *)
Definition unset (previewHost : option jstring) : bool :=
  match previewHost with
  | None => true
  | Some h => negb (truthy h)
  end.

(** The middleware, as a step on the module variable [previewHost]
    ([None] is [null]). *)
Definition previewHost_middleware
    (previewHost : option jstring) (req : IncomingMessage) : option jstring :=
  if unset previewHost then Some (host_or_empty req) else previewHost.

(** The variable after a sequence of requests, oldest first. *)
Definition previewHost_after
    (previewHost : option jstring) (reqs : list IncomingMessage) : option jstring :=
  foldl previewHost_middleware previewHost reqs.

(* ===================================================================== *)
(** ** Guard middleware *)
(* ===================================================================== *)

Definition allowedRoutes : list jstring :=
  [ js "/api/rofyDownloadFiles";
    js "/api/rofyUpdateFiles";
    js "/api/restart-frontend";
    js "/api/rofyLogs" ].

(** What the guard middleware (installed in development) does with a
    request: [next()] hands it to the local routes, the other branch calls
    [proxyToNext5173]. *)
Inductive routed : Type :=
  | CallNext
  | ProxyToNext5173.

Definition guard (req : IncomingMessage) : routed :=
  if existsb (str_eqb (originalUrl req)) allowedRoutes
     || startsWith (originalUrl req) (js "/api/downloads/")
  then CallNext
  else ProxyToNext5173.

(* ===================================================================== *)
(** ** The [proxyRes] handler *)
(* ===================================================================== *)

(** The upstream response as the handler sees it when it starts. *)
Record ProxyRes : Type := {
  statusCode : option Z;
  res_headers : gmap jstring header_value
}.

(** What the upstream stream emits afterwards. *)
Inductive stream_event : Type :=
  | Data (chunk : list Byte.byte)
  | EndOfStream.

(** Calls made on the client response [res], in order. *)
Inductive res_call : Type :=
  | SetStatusCode (code : Z)
  | WriteHead (code : Z) (hs : gmap jstring header_value)
  | Write (chunk : list Byte.byte)
  | End_
  | EndWith (body : jstring).

(** What listens to the upstream stream once the handler has returned:
    nothing, the pipe into [res], or the two listeners that fill [chunks]. *)
Inductive listening : Type :=
  | Detached
  | Piped
  | Buffering (chunks : list (list Byte.byte)).

(** [proxyRes.statusCode || 200]: [undefined] and [0] are falsy. *)
Definition status_or_200 (sc : option Z) : Z :=
  match sc with
  | None => 200
  | Some n => if (n =? 0)%Z then 200%Z else n
  end.

(** The headers of a rewritten document: a copy of the upstream headers
    without [content-length], with [content-type] and [cache-control] set. *)
Definition rewritten_headers (hs : gmap jstring header_value) : gmap jstring header_value :=
  <[js "cache-control" := HStr (js "no-store")]>
    (<[js "content-type" := HStr (js "text/html; charset=utf-8")]>
       (delete (js "content-length") hs)).

(** Header names as Node delivers them: lower case. *)
Definition to_lower (c : N) : N :=
  if (65 <=? c)%N && (c <=? 90)%N then (c + 32)%N else c.
Definition toLowerCase (s : jstring) : jstring := List.map to_lower s.

(** A decoder for the examples: one code unit per byte, which is what
    [toString("utf8")] gives on ASCII bodies. *)
Definition decode_ascii (bytes : list Byte.byte) : jstring :=
  List.map Byte.to_N bytes.

Section ProxyResHandler.

(** [Buffer.prototype.toString("utf8")], a function of Node. *)
Variable utf8_decode : list Byte.byte -> jstring.

(** The body of the handler: what it does at once, and what it leaves
    listening. *)
Definition proxyRes_handler (req : IncomingMessage) (proxyRes : ProxyRes)
    : listening * list res_call :=
  if str_eqb (url req) (js "/log-viewer.js") then
    (Detached, [SetStatusCode 404; End_])
  else if negb (isNavigationRequest req) then
    (Piped, [WriteHead (status_or_200 (statusCode proxyRes)) (res_headers proxyRes)])
  else
    (Buffering [], []).

(** One event of the upstream stream.  [pipe] writes each chunk as it
    arrives and ends [res] with the stream; the [data] listener pushes the
    chunk, the [end] listener rewrites and sends the whole document. *)
Definition on_event (proxyRes : ProxyRes) (l : listening) (ev : stream_event)
    : listening * list res_call :=
  match l, ev with
  | Detached, _ => (Detached, [])
  | Piped, Data c => (Piped, [Write c])
  | Piped, EndOfStream => (Detached, [End_])
  | Buffering chunks, Data c => (Buffering (chunks ++ [c]), [])
  | Buffering chunks, EndOfStream =>
      let body := injectHeadTag (utf8_decode (concat chunks)) in
      (Detached,
       [WriteHead (status_or_200 (statusCode proxyRes))
                  (rewritten_headers (res_headers proxyRes));
        EndWith body])
  end.

Fixpoint on_events (proxyRes : ProxyRes) (l : listening) (evs : list stream_event)
    : listening * list res_call :=
  match evs with
  | [] => (l, [])
  | ev :: evs' =>
      let '(l1, out1) := on_event proxyRes l ev in
      let '(l2, out2) := on_events proxyRes l1 evs' in
      (l2, out1 ++ out2)
  end.

(** Everything written to the client for one proxied exchange: the handler,
    then the events of the upstream stream. *)
Definition respond (req : IncomingMessage) (proxyRes : ProxyRes)
    (evs : list stream_event) : list res_call :=
  let '(l, out) := proxyRes_handler req proxyRes in
  out ++ snd (on_events proxyRes l evs).

End ProxyResHandler.

(* ===================================================================== *)
(** ** Process supervisor *)
(* ===================================================================== *)

Module Supervisor.

(** What the supervisor does to the operating system.  A child process is
    named by the order in which it was spawned. *)
Inductive effect : Type :=
  | Spawn (child : nat)
  | Kill (child : nat) (signal : jstring).

(** The module variable [viteProcess] ([None] is [null]), the number of
    children spawned so far, and the effects so far, oldest first. *)
Record state : Type := {
  viteProcess : option nat;
  spawned : nat;
  effects : list effect
}.

Definition initial : state :=
  {| viteProcess := None; spawned := 0; effects := [] |}.

(** [startDevServer]: [spawn] always returns a new handle, which is stored
    unconditionally. *)
Definition startDevServer (st : state) : state :=
  let devServer := spawned st in
  {| viteProcess := Some devServer;
     spawned := S (spawned st);
     effects := effects st ++ [Spawn devServer] |}.

Definition stopDevServer (st : state) : state :=
  match viteProcess st with
  | Some child =>
      {| viteProcess := None;
         spawned := spawned st;
         effects := effects st ++ [Kill child (js "SIGTERM")] |}
  | None => st
  end.

Definition restartDevServer (st : state) : state :=
  startDevServer (stopDevServer st).

(** The boot sequence starts the dev server in development only. *)
Definition boot (development : bool) : state :=
  if development then startDevServer initial else initial.

(** The children that were spawned and never sent a signal. *)
Definition signalled (child : nat) (e : effect) : bool :=
  match e with
  | Kill c _ => Nat.eqb c child
  | Spawn _ => false
  end.

Fixpoint active (es : list effect) : list nat :=
  match es with
  | [] => []
  | Spawn c :: es' => if existsb (signalled c) es' then active es' else c :: active es'
  | Kill _ _ :: es' => active es'
  end.

(** The invariant of the supervisor: the children that were never signalled
    are exactly the one held in [viteProcess], and every child spawned so
    far is older than the next one. *)
Definition supervised (st : state) : Prop :=
  active (effects st) = option_list (viteProcess st) /\
  forall c, c ∈ active (effects st) -> c < spawned st.

End Supervisor.

(* ===================================================================== *)
(** ** Log relay: [stripAnsi], [extractChatId], [logErrors] *)
(* ===================================================================== *)

(** [s.trimStart()], [s.trimEnd()] and [s.trim()]: the white space removed
    is the set of [\s]. *)
Fixpoint trimStart (s : jstring) : jstring :=
  match s with
  | [] => []
  | c :: s' => if is_space c then trimStart s' else s
  end.

Definition trimEnd (s : jstring) : jstring := rev (trimStart (rev s)).

Definition trim (s : jstring) : jstring := trimEnd (trimStart s).

(** A text that neither begins nor ends with white space. *)
Definition no_outer_space (s : jstring) : Prop :=
  (forall c t, s = c :: t -> is_space c = false) /\
  (forall t c, s = t ++ [c] -> is_space c = false).

(** The length of the longest prefix of [s] that [r] matches. *)
Fixpoint match_length (r : regex) (s : jstring) : option nat :=
  match s with
  | [] => if nullable r then Some 0 else None
  | c :: s' =>
      match match_length (deriv c r) s' with
      | Some n => Some (S n)
      | None => if nullable r then Some 0 else None
      end
  end.

(** [s.replace(/r/g, '')]: from left to right, a match that starts at the
    current position is left out and the scan continues after it; otherwise
    the code unit is kept.  [skip] counts the code units of the current
    match that are still to be left out.  The match taken at a position is
    the longest one; the pattern of [stripAnsi] has at most one match at a
    position (lemma [sgr_match_unique]), so this is the match JavaScript
    takes. *)
Fixpoint remove_all (r : regex) (skip : nat) (s : jstring) : jstring :=
  match s with
  | [] => []
  | c :: s' =>
      match skip with
      | S k => remove_all r k s'
      | O =>
          match match_length r s with
          | Some (S k) => remove_all r k s'
          | _ => c :: remove_all r 0 s'
          end
      end
  end.

(** The escape character U+001B. *)
Definition ESC : N := 27.

(** [[0-9;]] *)
Definition is_sgr_param (c : N) : bool := is_digit c || (c =? 59)%N.

(** [/\u001b\[[0-9;]*m/] *)
Definition re_sgr : regex :=
  Seq (Lit ESC) (Seq (Lit 91) (Seq (Star (Class is_sgr_param)) (Lit 109))).

Definition stripAnsi (str : jstring) : jstring := remove_all re_sgr 0 str.

(** A pattern for a literal text. *)
Fixpoint literal (s : jstring) : regex :=
  match s with
  | [] => Eps
  | c :: s' => Seq (Lit c) (literal s')
  end.

(** [[^.]] *)
Definition not_dot (c : N) : bool := negb (c =? 46)%N.

(** [/^preview-([^.]+)\./] *)
Definition re_preview : regex :=
  Seq (literal (js "preview-")) (Seq (Plus (Class not_dot)) (Lit 46)).

Fixpoint take_while (p : N -> bool) (s : jstring) : jstring :=
  match s with
  | [] => []
  | c :: s' => if p c then c :: take_while p s' else []
  end.

(** What is sent to the review endpoint, before [JSON.stringify]. *)
Record review_request : Type := {
  chatId : option jstring;
  errorLogs : list jstring
}.

Section LogRelay.

(** [String.prototype.toLowerCase], a function of the language (on ASCII
    host names it is [toLowerCase] above). *)
Variable lowercase : jstring -> jstring.

(** [extractChatId].  The group [([^.]+)] cannot hold a dot and is followed
    by one, so [m[1]] is the run of code units between [preview-] and the
    first dot. *)
Definition extractChatId (previewHost : option jstring) : option jstring :=
  if unset previewHost then None
  else
    let h := lowercase (default [] previewHost) in
    if test re_preview h
    then Some (take_while not_dot (drop (length (js "preview-")) h))
    else None.

(** [logErrors]: the body of the request it posts. *)
Definition logErrors (previewHost : option jstring) (message : jstring) : review_request :=
  let shrunk := shrinkError (RawString message) in
  let stripAnsiString := stripAnsi shrunk in
  {| chatId := extractChatId previewHost; errorLogs := [stripAnsiString] |}.

(** The [data] listener of the child's stderr: [block] is
    [buf.toString()]; nothing is relayed for a block of white space. *)
Definition on_stderr_data (previewHost : option jstring) (block : jstring)
    : option review_request :=
  if negb (truthy (trim block)) then None
  else Some (logErrors previewHost (trim block)).

End LogRelay.

(* ===================================================================== *)
(** ** Access log and the [proxyReq] handler *)
(* ===================================================================== *)

(** The horizontal ellipsis U+2026, one code unit. *)
Definition ellipsis : N := 8230.

(** The line of the [finish] listener before it is shortened.  [status] and
    [duration] are the decimal texts of the two numbers; [captured] is
    [Some json] when the captured body is truthy, with [json] its
    [JSON.stringify] text. *)
Definition access_log_text
    (method reqPath status duration : jstring) (captured : option jstring) : jstring :=
  let line := method ++ js " " ++ reqPath ++ js " " ++ status
              ++ js " in " ++ duration ++ js "ms" in
  match captured with
  | Some json => line ++ js " :: " ++ json
  | None => line
  end.

(** [if (line.length > 80) line = line.slice(0, 79) + "…"] *)
Definition shorten (line : jstring) : jstring :=
  if 80 <? length line then take 79 line ++ [ellipsis] else line.

(** What the [finish] listener logs, if anything. *)
Definition access_log_line
    (method reqPath status duration : jstring) (captured : option jstring)
    : option jstring :=
  if startsWith reqPath (js "/api")
  then Some (shorten (access_log_text method reqPath status duration captured))
  else None.

(** Calls made on the outgoing request [proxyReq]. *)
Inductive proxyReq_call : Type :=
  | SetHeader (name value : jstring).

(** The [proxyReq] handler (its [console.log] is left out). *)
Definition proxyReq_handler (req : IncomingMessage) : list proxyReq_call :=
  if str_eqb (url req) (js "/log-viewer.js") then []
  else if isNavigationRequest req
       then [SetHeader (js "accept-encoding") (js "identity")]
       else [].

(* ===================================================================== *)
(** ** [parseGitignore] of zip.ts *)
(* ===================================================================== *)

(** [file] is [None] when the file does not exist, and otherwise the text
    read from it. *)
Definition parseGitignore (file : option jstring) : list jstring :=
  match file with
  | None => []
  | Some raw =>
      filter (fun line => truthy line && negb (startsWith line (js "#")) = true)
             (List.map trim (split LF raw))
  end.

(* ===================================================================== *)
(** ** The application stack *)
(* ===================================================================== *)





Section Stack.

(** The layers of the application that are not in the source files: the
    library middleware and static files registered before the restart
    route, and the routes that [registerRoutes] (routes.ts) registers.
    Each is given by the requests it answers. *)
Variable answered_before : IncomingMessage -> bool.
Variable registered : IncomingMessage -> bool.


End Stack.

(* ===================================================================== *)
(** * Properties *)
(* ===================================================================== *)

(** ** The functions on examples *)

Example ex_includes : includes (js "a text/html b") (js "text/html") = true.
Proof. vm_compute. reflexivity. Qed.
Example ex_replace : replace (js "a-b-c") (js "-") (js "+$&+") = js "a+-+b-c".
Proof. vm_compute. reflexivity. Qed.
Example ex_split :
  split LF (js "a" ++ [LF] ++ js "b" ++ [LF; LF] ++ js "c") = [js "a"; js "b"; []; js "c"].
Proof. vm_compute. reflexivity. Qed.
Example ex_inject1 :
  injectHeadTag (js "<html><head></head><body></body></html>")
  = js "<html><head>" ++ tag ++ js "</head><body></body></html>".
Proof. vm_compute. reflexivity. Qed.
Example ex_cf1 : is_codeframe (js "  37 | foo") = true.
Proof. vm_compute. reflexivity. Qed.
Example ex_cf2 : is_codeframe (js "    at foo (x.js:1:2)") = false.
Proof. vm_compute. reflexivity. Qed.
Example ex_cf3 : is_codeframe (js "> 12 | x") = true.
Proof. vm_compute. reflexivity. Qed.
Example ex_shrink :
  shrinkError (RawString (js "Error: x" ++ [LF] ++ js " 1 | a" ++ [LF] ++ js "  at f" ++ [LF] ++ js "> 2 | b"))
  = js "Error: x" ++ [LF;LF] ++ js " 1 | a" ++ [LF] ++ js "> 2 | b".
Proof. vm_compute. reflexivity. Qed.

(** ** Substring search *)

Section SubstringSearch.

Implicit Types s p rep : jstring.

Lemma startsWith_spec s p :
  startsWith s p = true <-> exists rest, s = p ++ rest.
Proof.
  revert s. induction p as [|c p IH]; intros s; simpl.
  - split; [intros _; by exists s | done].
  - destruct s as [|d s].
    + split; [done | intros [rest Hrest]; discriminate].
    + rewrite andb_true_iff, N.eqb_eq, IH. split.
      * intros [-> [rest ->]]. by exists rest.
      * intros [rest Hrest]. injection Hrest as -> ->. eauto.
Qed.

Lemma startsWith_drop s p :
  startsWith s p = true -> s = p ++ drop (length p) s.
Proof.
  intros [rest ->]%startsWith_spec. by rewrite drop_app_length.
Qed.

Lemma includes_spec s p : includes s p = true <-> contains s p.
Proof.
  unfold contains. induction s as [|c s IH].
  - simpl. rewrite orb_false_r, startsWith_spec. split.
    + intros [rest Hrest]. by exists [], rest.
    + intros [before [after Heq]]. destruct before; [by exists after|done].
  - cbn [includes]. rewrite orb_true_iff, startsWith_spec, IH. split.
    + intros [[rest ->] | [before [after ->]]].
      * by exists [], rest.
      * by exists (c :: before), after.
    + intros [[|d before] [after Heq]].
      * left. by exists after.
      * right. injection Heq as -> ->. by exists before, after.
Qed.

Lemma includes_false s p : includes s p = false <-> ~ contains s p.
Proof.
  rewrite <- includes_spec. destruct (includes s p); split; congruence.
Qed.

Lemma contains_middle a s b p : contains s p -> contains (a ++ s ++ b) p.
Proof.
  intros [x [y ->]]. exists (a ++ x), (y ++ b). by rewrite <- !app_assoc.
Qed.

(** [search] finds an occurrence, and no occurrence starts before it. *)
Lemma search_Some s p before after :
  search s p = Some (before, after) ->
  s = before ++ p ++ after /\
  forall before' after', s = before' ++ p ++ after' -> length before <= length before'.
Proof.
  revert before after. induction s as [|c s IH]; intros before after; simpl.
  - destruct (startsWith [] p) eqn:Hsw; [|done].
    intros [= <- <-]. split; [|intros; simpl; lia].
    by apply startsWith_drop in Hsw.
  - destruct (startsWith (c :: s) p) eqn:Hsw.
    + intros [= <- <-]. split; [|intros; simpl; lia].
      by apply startsWith_drop in Hsw.
    + destruct (search s p) as [[b a]|] eqn:Hs; [|done].
      intros [= <- <-]. destruct (IH b a eq_refl) as [-> Hleft].
      split; [done|]. intros [|d before'] after' Heq.
      * exfalso. assert (startsWith (c :: b ++ p ++ a) p = true) as Hyes.
        { apply startsWith_spec. by exists after'. }
        congruence.
      * injection Heq as -> Heq. simpl. apply Hleft in Heq. lia.
Qed.

Lemma search_is_Some s p : contains s p -> is_Some (search s p).
Proof.
  intros Hc%includes_spec. induction s as [|c s IH]; simpl in *.
  - rewrite orb_false_r in Hc. by rewrite Hc.
  - destruct (startsWith (c :: s) p); [done|]. simpl in Hc.
    destruct (IH Hc) as [[b a] ->]. done.
Qed.

(** A replacement text without a dollar sign is inserted as it is. *)
Lemma GetSubstitution_plain matched before after rep :
  36%N ∉ rep -> GetSubstitution matched before after rep = rep.
Proof.
  induction rep as [|c rep IH]; [done|].
  intros Hnot. apply not_elem_of_cons in Hnot as [Hc Hrep].
  cbn [GetSubstitution]. destruct (N.eqb_spec c 36); [done|].
  by rewrite IH.
Qed.

Lemma replace_first s p rep :
  contains s p -> 36%N ∉ rep ->
  exists before after,
    s = before ++ p ++ after /\
    (forall before' after', s = before' ++ p ++ after' -> length before <= length before') /\
    replace s p rep = before ++ rep ++ after.
Proof.
  intros Hc Hrep. destruct (search_is_Some s p Hc) as [[b a] Hs].
  exists b, a. destruct (search_Some _ _ _ _ Hs) as [Heq Hleft].
  split; [done|]. split; [done|].
  unfold replace. by rewrite Hs, GetSubstitution_plain.
Qed.

End SubstringSearch.

(** ** HTML injector *)

Section Injector.

Implicit Types html : jstring.

Lemma tag_contains_marker : contains tag marker.
Proof.
  exists (js "<script type=" ++ quoted (js "module") ++ js " src="
          ++ quoted (js "https://preview.rezzo.dev/js/reviewer.js") ++ js " "),
         (js " defer></script>").
  unfold tag. by rewrite <- !app_assoc.
Qed.

Lemma no_dollar_in_head_insert : 36%N ∉ tag ++ close_head.
Proof. apply (bool_decide_unpack _). vm_compute. exact I. Qed.

Lemma no_dollar_in_body_insert : 36%N ∉ tag ++ close_body.
Proof. apply (bool_decide_unpack _). vm_compute. exact I. Qed.

(** With the sentinel present the document is returned as it is. *)
Lemma injectHeadTag_marked html :
  contains html marker -> injectHeadTag html = html.
Proof.
  intros Hc%includes_spec. unfold injectHeadTag. by rewrite Hc.
Qed.

(** Insertion before the first occurrence of a closing tag. *)
Lemma insert_before_first html closing :
  contains html closing -> 36%N ∉ tag ++ closing ->
  exists before after,
    html = before ++ closing ++ after /\
    (forall before' after',
        html = before' ++ closing ++ after' -> length before <= length before') /\
    replace html closing (tag ++ closing) = before ++ tag ++ closing ++ after.
Proof.
  intros Hc Hd. destruct (replace_first html closing _ Hc Hd) as (b & a & H1 & H2 & H3).
  exists b, a. by rewrite H3, <- app_assoc.
Qed.

(** Whatever the branch, the result carries the sentinel. *)
Lemma injectHeadTag_contains_marker html : contains (injectHeadTag html) marker.
Proof.
  unfold injectHeadTag.
  destruct (includes html marker) eqn:Hm; [by apply includes_spec|].
  destruct (includes html close_head) eqn:Hh.
  { apply includes_spec in Hh.
    destruct (insert_before_first _ _ Hh no_dollar_in_head_insert) as (b & a & _ & _ & ->).
    apply contains_middle, tag_contains_marker. }
  destruct (includes html close_body) eqn:Hb.
  { apply includes_spec in Hb.
    destruct (insert_before_first _ _ Hb no_dollar_in_body_insert) as (b & a & _ & _ & ->).
    apply contains_middle, tag_contains_marker. }
  rewrite app_assoc. rewrite <- (app_nil_r tag).
  apply contains_middle, tag_contains_marker.
Qed.

End Injector.

(** C2. The injector is idempotent: injecting into an already injected
    document returns it unchanged, for every input string; the result of one
    injection carries the sentinel, so a second call never inserts the tag
    again. *)
Theorem injectHeadTag_idempotent (html : jstring) :
  injectHeadTag (injectHeadTag html) = injectHeadTag html.
Proof.
  apply injectHeadTag_marked, injectHeadTag_contains_marker.
Qed.

(** C4. For a string without the sentinel
    [data-rofy="console-capture"], the script tag
    [<script type="module" src="https://preview.rezzo.dev/js/reviewer.js"
    data-rofy="console-capture" defer></script>], which carries the
    sentinel, is inserted by a cascade: immediately before the (first)
    [</head>] if there is one; otherwise immediately before the (first)
    [</body>] if there is one; otherwise it is appended after a line feed.
    The rest of the input is preserved, and nothing is assumed about the
    input being HTML. *)
Theorem injectHeadTag_cascade (html : jstring) :
  let sentinel := js "data-rofy=" ++ [34%N] ++ js "console-capture" ++ [34%N] in
  let script :=
    js "<script type=" ++ [34%N] ++ js "module" ++ [34%N]
    ++ js " src=" ++ [34%N] ++ js "https://preview.rezzo.dev/js/reviewer.js" ++ [34%N]
    ++ js " data-rofy=" ++ [34%N] ++ js "console-capture" ++ [34%N]
    ++ js " defer></script>" in
  (js "</head>" = [60; 47; 104; 101; 97; 100; 62]%N /\
   js "</body>" = [60; 47; 98; 111; 100; 121; 62]%N /\
   length script = 112 /\
   exists before after, script = before ++ sentinel ++ after)
  /\
  ((forall before after, html <> before ++ sentinel ++ after) ->
   ((exists before after, html = before ++ js "</head>" ++ after) ->
    exists before after,
      html = before ++ js "</head>" ++ after /\
      (forall before' after',
          html = before' ++ js "</head>" ++ after' -> length before <= length before') /\
      injectHeadTag html = before ++ script ++ js "</head>" ++ after)
   /\
   ((forall before after, html <> before ++ js "</head>" ++ after) ->
    (exists before after, html = before ++ js "</body>" ++ after) ->
    exists before after,
      html = before ++ js "</body>" ++ after /\
      (forall before' after',
          html = before' ++ js "</body>" ++ after' -> length before <= length before') /\
      injectHeadTag html = before ++ script ++ js "</body>" ++ after)
   /\
   ((forall before after, html <> before ++ js "</head>" ++ after) ->
    (forall before after, html <> before ++ js "</body>" ++ after) ->
    injectHeadTag html = html ++ [10%N] ++ script)).
Proof.
  intros sentinel script.
  assert (script = tag) as Hscript by (vm_compute; reflexivity).
  assert (sentinel = marker) as Hsentinel by (vm_compute; reflexivity).
  assert (forall p, (forall before after, html <> before ++ p ++ after) <-> ~ contains html p)
    as Hnot.
  { intros p. unfold contains. split.
    - intros H (b & a & Heq). by apply (H b a).
    - intros H b a Heq. apply H. by exists b, a. }
  split.
  { split; [by vm_compute|]. split; [by vm_compute|]. split; [by vm_compute|].
    rewrite Hscript, Hsentinel. apply tag_contains_marker. }
  rewrite Hscript, Hsentinel, !Hnot. clear Hnot.
  change (js "</head>") with close_head. change (js "</body>") with close_body.
  change [10%N] with [LF].
  intros Hm%includes_false. unfold injectHeadTag. rewrite Hm.
  split; [|split].
  - intros Hh. pose proof Hh as Hh'%includes_spec. rewrite Hh'.
    apply insert_before_first; [done | apply no_dollar_in_head_insert].
  - intros Hh%includes_false Hb. rewrite Hh.
    pose proof Hb as Hb'%includes_spec. rewrite Hb'.
    apply insert_before_first; [done | apply no_dollar_in_body_insert].
  - intros Hh%includes_false Hb%includes_false. by rewrite Hh, Hb.
Qed.

Lemma injectHeadTag_cascade_witness :
  let script :=
    js "<script type=" ++ [34%N] ++ js "module" ++ [34%N]
    ++ js " src=" ++ [34%N] ++ js "https://preview.rezzo.dev/js/reviewer.js" ++ [34%N]
    ++ js " data-rofy=" ++ [34%N] ++ js "console-capture" ++ [34%N]
    ++ js " defer></script>" in
  injectHeadTag (js "plain text, no tags") = js "plain text, no tags" ++ [10%N] ++ script /\
  exists before after,
    js "<html><head></head><body></body></html>" = before ++ js "</head>" ++ after /\
    (forall before' after',
        js "<html><head></head><body></body></html>" = before' ++ js "</head>" ++ after' ->
        length before <= length before') /\
    injectHeadTag (js "<html><head></head><body></body></html>")
    = before ++ script ++ js "</head>" ++ after.
Proof.
  intros script.
  assert (forall html p, includes html p = false ->
            forall before after, html <> before ++ p ++ after) as Habsent.
  { intros html p Hinc b a Heq. apply includes_false in Hinc. apply Hinc. by exists b, a. }
  split.
  - apply (proj2 (injectHeadTag_cascade (js "plain text, no tags"))).
    + apply Habsent. vm_compute. reflexivity.
    + apply Habsent. vm_compute. reflexivity.
    + apply Habsent. vm_compute. reflexivity.
  - apply (proj2 (injectHeadTag_cascade (js "<html><head></head><body></body></html>"))).
    + apply Habsent. vm_compute. reflexivity.
    + by exists (js "<html><head>"), (js "<body></body></html>").
Defined.

(** C10. Sentinel detection is a substring test: a string in which the
    sentinel text occurs anywhere, whatever surrounds it, is recognised and
    returned unchanged, so no tag is added to it. *)
Theorem sentinel_is_substring_test (before after : jstring) :
  includes (before ++ marker ++ after) marker = true /\
  injectHeadTag (before ++ marker ++ after) = before ++ marker ++ after.
Proof.
  assert (contains (before ++ marker ++ after) marker) as Hc by (by eexists _, _).
  split; [by apply includes_spec | by apply injectHeadTag_marked].
Qed.

(** The sentinel as ordinary text of a page that has a head: nothing is
    inserted. *)
Example sentinel_in_text :
  let html := js "<head></head><p>" ++ marker ++ js "</p>" in
  injectHeadTag html = html.
Proof. vm_compute. reflexivity. Qed.

(** ** Navigation classifier *)

Section Classifier.

Implicit Types (req : IncomingMessage) (h : gmap jstring header_value).

Lemma str_eqb_eq (a b : jstring) : str_eqb a b = true <-> a = b.
Proof. unfold str_eqb. apply bool_decide_eq_true. Qed.

Lemma header_text_absent h name : h !! name = None -> header_text h name = [].
Proof. unfold header_text. by intros ->. Qed.

Lemma header_text_string h name s :
  h !! name = Some (HStr s) -> header_text h name = s.
Proof. unfold header_text. intros ->. by destruct s. Qed.

(** The five conditions of the classifier. *)
Lemma isNavigationRequest_true req :
  isNavigationRequest req = true <->
  method req = js "GET" /\
  contains (header_text (headers req) (js "accept")) (js "text/html") /\
  header_text (headers req) (js "sec-fetch-dest") = js "document" /\
  header_text (headers req) (js "sec-fetch-mode") = js "navigate" /\
  (header_text (headers req) (js "sec-fetch-site") = js "none" \/
   header_text (headers req) (js "sec-fetch-site") = js "same-origin" \/
   header_text (headers req) (js "sec-fetch-site") = js "cross-site").
Proof.
  unfold isNavigationRequest.
  rewrite !andb_true_iff, !orb_true_iff, !str_eqb_eq, includes_spec.
  tauto.
Qed.

End Classifier.

(** C1. The classifier reads each of the four headers off the header map:
    a header that is present reads as its value, a header that is absent
    reads as the empty string.  It returns true exactly when the method is
    GET, the Accept header contains text/html, Sec-Fetch-Dest is document,
    Sec-Fetch-Mode is navigate and Sec-Fetch-Site is none, same-origin or
    cross-site; when one of the four headers is absent it returns false. *)
Theorem isNavigationRequest_spec (req : IncomingMessage) :
  (forall name s,
      headers req !! name = Some (HStr s) -> header_text (headers req) name = s)
  /\
  (forall name l,
      headers req !! name = Some (HArr l) ->
      header_text (headers req) name = join [44%N] l)
  /\
  (forall accept dest mode site,
      headers req !! js "accept" = Some (HStr accept) ->
      headers req !! js "sec-fetch-dest" = Some (HStr dest) ->
      headers req !! js "sec-fetch-mode" = Some (HStr mode) ->
      headers req !! js "sec-fetch-site" = Some (HStr site) ->
      (isNavigationRequest req = true <->
       method req = js "GET" /\
       (exists before after, accept = before ++ js "text/html" ++ after) /\
       dest = js "document" /\
       mode = js "navigate" /\
       (site = js "none" \/ site = js "same-origin" \/ site = js "cross-site")))
  /\
  (isNavigationRequest req = true <->
   method req = js "GET" /\
   contains (header_text (headers req) (js "accept")) (js "text/html") /\
   header_text (headers req) (js "sec-fetch-dest") = js "document" /\
   header_text (headers req) (js "sec-fetch-mode") = js "navigate" /\
   (header_text (headers req) (js "sec-fetch-site") = js "none" \/
    header_text (headers req) (js "sec-fetch-site") = js "same-origin" \/
    header_text (headers req) (js "sec-fetch-site") = js "cross-site"))
  /\
  (forall name,
      name ∈ [js "accept"; js "sec-fetch-dest"; js "sec-fetch-mode"; js "sec-fetch-site"] ->
      headers req !! name = None ->
      header_text (headers req) name = [] /\ isNavigationRequest req = false).
Proof.
  split; [intros name s; apply header_text_string|].
  split; [intros name l Hl; unfold header_text; by rewrite Hl|].
  split.
  { intros accept dest mode site Ha Hd Hm Hs.
    rewrite isNavigationRequest_true.
    by rewrite (header_text_string _ _ _ Ha), (header_text_string _ _ _ Hd),
      (header_text_string _ _ _ Hm), (header_text_string _ _ _ Hs). }
  split; [apply isNavigationRequest_true|].
  intros name Hin Habs. pose proof (header_text_absent _ _ Habs) as Hnil.
  split; [done|]. apply not_true_is_false. intros Hnav.
  apply isNavigationRequest_true in Hnav as (_ & Ha & Hd & Hm & Hs).
  rewrite !elem_of_cons, elem_of_nil in Hin.
  destruct Hin as [-> | [-> | [-> | [-> | []]]]]; rewrite Hnil in *.
  - apply includes_spec in Ha. vm_compute in Ha. discriminate.
  - discriminate.
  - discriminate.
  - destruct Hs as [Hs | [Hs | Hs]]; discriminate.
Qed.

Lemma isNavigationRequest_spec_witness :
  let without_mode :=
    {| method := js "GET"; url := js "/"; originalUrl := js "/";
       headers := delete (js "sec-fetch-mode") navigation_headers |} in
  isNavigationRequest navigation_request = true /\
  header_text (headers navigation_request) (js "accept") = js "text/html" /\
  header_text (headers without_mode) (js "sec-fetch-mode") = [] /\
  isNavigationRequest without_mode = false.
Proof.
  intros without_mode.
  destruct (isNavigationRequest_spec navigation_request) as (Hstr & _ & Hraw & _ & _).
  destruct (isNavigationRequest_spec without_mode) as (_ & _ & _ & _ & Habsent).
  split; [|split].
  - apply (Hraw (js "text/html") (js "document") (js "navigate") (js "same-origin"));
      try reflexivity.
    split; [reflexivity|]. split; [by exists [], []|].
    split; [reflexivity|]. split; [reflexivity|]. right. by left.
  - apply Hstr. reflexivity.
  - apply (Habsent (js "sec-fetch-mode")).
    + rewrite !elem_of_cons. tauto.
    + vm_compute. reflexivity.
Defined.

Example navigation_request_classified :
  isNavigationRequest navigation_request = true.
Proof. vm_compute. reflexivity. Qed.

Example post_is_not_navigation :
  isNavigationRequest
    {| method := js "POST"; url := js "/"; originalUrl := js "/";
       headers := navigation_headers |} = false.
Proof. vm_compute. reflexivity. Qed.

Example dest_empty_is_not_navigation :
  isNavigationRequest
    {| method := js "GET"; url := js "/"; originalUrl := js "/";
       headers := <[js "sec-fetch-dest" := HStr (js "empty")]> navigation_headers |} = false.
Proof. vm_compute. reflexivity. Qed.

(** ** Guard middleware *)

Section Guard.

Implicit Types req : IncomingMessage.




End Guard.




Example restart_route_guarded :
  guard {| method := js "POST"; url := js "/api/restart-frontend";
           originalUrl := js "/api/restart-frontend"; headers := ∅ |} = CallNext.
Proof. vm_compute. reflexivity. Qed.

Example download_guarded :
  guard {| method := js "GET"; url := js "/a.zip";
           originalUrl := js "/api/downloads/a.zip?v=2"; headers := ∅ |} = CallNext.
Proof. vm_compute. reflexivity. Qed.

(** ** Session identity *)

Section SessionIdentity.

Implicit Types (req : IncomingMessage) (reqs : list IncomingMessage).

(** A stored value that is not empty survives every request. *)
Lemma previewHost_middleware_keeps (h : jstring) req :
  h <> [] -> previewHost_middleware (Some h) req = Some h.
Proof. intros Hh. by destruct h. Qed.

Lemma previewHost_after_keeps (h : jstring) reqs :
  h <> [] -> previewHost_after (Some h) reqs = Some h.
Proof.
  intros Hh. unfold previewHost_after. induction reqs as [|r reqs IH]; [done|].
  simpl. by rewrite previewHost_middleware_keeps.
Qed.

(** Requests without a usable Host leave the variable unset (null or
    empty). *)
Lemma previewHost_after_unset (ph : option jstring) reqs :
  unset ph = true ->
  Forall (fun r => host_or_empty r = []) reqs ->
  unset (previewHost_after ph reqs) = true.
Proof.
  unfold previewHost_after. revert ph.
  induction reqs as [|r reqs IH]; intros ph Hu Hall; [done|].
  apply Forall_cons in Hall as [Hr Hall]. simpl. apply IH; [|done].
  unfold previewHost_middleware. by rewrite Hu, Hr.
Qed.

End SessionIdentity.

(** The claim as stated fails: a first request without a Host header stores
    the empty string, and the next request overwrites it. *)
Lemma previewHost_overwritten :
  let no_host := {| method := js "GET"; url := js "/"; originalUrl := js "/";
                    headers := ∅ |} in
  let with_host := {| method := js "GET"; url := js "/"; originalUrl := js "/";
                      headers := {[ js "host" := HStr (js "preview-abc123.example.dev") ]} |} in
  previewHost_after None [no_host] = Some [] /\
  previewHost_after None [no_host; with_host] = Some (js "preview-abc123.example.dev") /\
  previewHost_after None [no_host; with_host] <> previewHost_after None [no_host].
Proof. vm_compute. repeat split; discriminate. Qed.

(** C8 (amended). The session identity is taken from the first request
    whose Host header is not empty: the requests before it leave the
    variable unset, and once a non-empty value is stored no later request
    changes it. *)
Theorem previewHost_first_nonempty_wins
    (earlier later : list IncomingMessage) (req : IncomingMessage) (h : jstring) :
  Forall (fun r => host_or_empty r = []) earlier ->
  host_or_empty req <> [] ->
  h <> [] ->
  unset (previewHost_after None earlier) = true /\
  previewHost_after None (earlier ++ req :: later) = Some (host_or_empty req) /\
  previewHost_after (Some h) later = Some h.
Proof.
  intros Hearlier Hreq Hh.
  pose proof (previewHost_after_unset None earlier eq_refl Hearlier) as Hu.
  split; [done|]. split; [|by apply previewHost_after_keeps].
  unfold previewHost_after in *. rewrite foldl_app. simpl.
  unfold previewHost_middleware at 2. rewrite Hu.
  by apply previewHost_after_keeps.
Qed.

Lemma previewHost_first_nonempty_wins_witness :
  let no_host := {| method := js "GET"; url := js "/"; originalUrl := js "/";
                    headers := ∅ |} in
  let host_a := {| method := js "GET"; url := js "/"; originalUrl := js "/";
                   headers := {[ js "host" := HStr (js "preview-a.example.dev") ]} |} in
  let host_b := {| method := js "GET"; url := js "/"; originalUrl := js "/";
                   headers := {[ js "host" := HStr (js "preview-b.example.dev") ]} |} in
  previewHost_after None ([no_host] ++ host_a :: [host_b])
  = Some (host_or_empty host_a).
Proof.
  intros no_host host_a host_b.
  apply (previewHost_first_nonempty_wins [no_host] [host_b] host_a (js "x")).
  - repeat constructor.
  - vm_compute. discriminate.
  - vm_compute. discriminate.
Defined.

(** ** Process supervisor *)

Module SupervisorFacts.
Import Supervisor.


Lemma existsb_signalled_snoc_spawn c es n :
  existsb (signalled c) (es ++ [Spawn n]) = existsb (signalled c) es.
Proof. rewrite existsb_app. simpl. by rewrite !orb_false_r. Qed.

Lemma active_snoc_spawn es n : active (es ++ [Spawn n]) = active es ++ [n].
Proof.
  induction es as [|[c|c sig] es IH]; simpl; [done| |done].
  rewrite existsb_signalled_snoc_spawn, IH. by destruct (existsb _ es).
Qed.

Lemma active_snoc_kill es c sig :
  active (es ++ [Kill c sig]) = filter (fun x => x <> c) (active es).
Proof.
  induction es as [|[d|d sig'] es IH]; simpl; [done| |done].
  rewrite existsb_app. simpl. rewrite orb_false_r, IH.
  destruct (existsb (signalled d) es); simpl.
  - by destruct (Nat.eqb_spec c d).
  - destruct (Nat.eqb_spec c d) as [->|Hne].
    + rewrite filter_cons_False; [done|]. by intros H.
    + rewrite filter_cons_True; [done|]. congruence.
Qed.

Lemma supervised_initial : supervised initial.
Proof. split; [done|]. simpl. intros c Hc. by apply elem_of_nil in Hc. Qed.

Lemma supervised_stop st : supervised st -> supervised (stopDevServer st).
Proof.
  intros [Hact Hlt]. unfold stopDevServer.
  destruct (viteProcess st) as [c|] eqn:Hv; [|split; [by rewrite Hv|done]].
  split; simpl.
  - rewrite active_snoc_kill, Hact. simpl.
    rewrite filter_cons_False; [done|]. by intros H.
  - intros d. rewrite active_snoc_kill, Hact. simpl.
    rewrite filter_cons_False; [|by intros H]. by intros Hd%elem_of_nil.
Qed.

Lemma supervised_start st :
  supervised st -> viteProcess st = None -> supervised (startDevServer st).
Proof.
  intros [Hact Hlt] Hv. unfold startDevServer. split; simpl.
  - by rewrite active_snoc_spawn, Hact, Hv.
  - intros c. rewrite active_snoc_spawn, Hact, Hv. simpl.
    intros ->%list_elem_of_singleton. lia.
Qed.

Lemma stop_clears st : viteProcess (stopDevServer st) = None.
Proof. unfold stopDevServer. by destruct (viteProcess st) eqn:Hv. Qed.

Lemma supervised_restart st : supervised st -> supervised (restartDevServer st).
Proof.
  intros H. apply supervised_start; [by apply supervised_stop | apply stop_clears].
Qed.

Lemma supervised_boot development : supervised (boot development).
Proof.
  destruct development; simpl; [|apply supervised_initial].
  apply supervised_start; [apply supervised_initial | done].
Qed.

(** Every state the program reaches: the boot, then any number of calls of
    the restart route. *)
Lemma supervised_reachable development n :
  supervised (Nat.iter n restartDevServer (boot development)).
Proof.
  induction n as [|n IH]; simpl; [apply supervised_boot | by apply supervised_restart].
Qed.

(** C9. A restart is a stop followed by a start.  When a child is held it is
    sent SIGTERM, and only then is the replacement spawned; the replacement
    is a new child; afterwards the replacement is the one child that was
    never signalled, and it is the one held in [viteProcess]. *)
Theorem restart_stops_then_starts (st : state) :
  supervised st ->
  restartDevServer st = startDevServer (stopDevServer st) /\
  (forall old,
      viteProcess st = Some old ->
      effects (restartDevServer st)
      = effects st ++ [Kill old (js "SIGTERM"); Spawn (spawned st)] /\
      old <> spawned st) /\
  (viteProcess st = None ->
   effects (restartDevServer st) = effects st ++ [Spawn (spawned st)]) /\
  viteProcess (restartDevServer st) = Some (spawned st) /\
  active (effects (restartDevServer st)) = [spawned st] /\
  supervised (restartDevServer st).
Proof.
  intros Hsup. split; [done|].
  pose proof (supervised_restart st Hsup) as [Hact' Hlt'].
  destruct Hsup as [Hact Hlt].
  assert (viteProcess (restartDevServer st) = Some (spawned st)) as Hv'.
  { unfold restartDevServer, stopDevServer. by destruct (viteProcess st). }
  split; [|split; [|split; [|split]]].
  - intros old Hold. split.
    + unfold restartDevServer, stopDevServer. rewrite Hold. simpl.
      by rewrite <- app_assoc.
    + intros ->. rewrite Hold in Hact.
      assert (spawned st < spawned st); [|lia].
      apply Hlt. rewrite Hact. by apply list_elem_of_singleton.
  - intros Hv. unfold restartDevServer, stopDevServer. by rewrite Hv.
  - done.
  - by rewrite Hact', Hv'.
  - by split.
Qed.

Lemma restart_stops_then_starts_witness :
  effects (restartDevServer (boot true))
  = [Spawn 0; Kill 0 (js "SIGTERM"); Spawn 1] /\
  active (effects (restartDevServer (boot true))) = [1].
Proof.
  destruct (restart_stops_then_starts (boot true) (supervised_boot true))
    as (_ & Hold & _ & _ & Hactive & _).
  split.
  - apply (Hold 0 eq_refl).
  - exact Hactive.
Defined.

(** Two restarts in a row: one child is left unsignalled, and each child was
    signalled before its replacement was spawned. *)
Example restart_twice :
  let st := restartDevServer (restartDevServer (boot true)) in
  effects st = [Spawn 0; Kill 0 (js "SIGTERM"); Spawn 1; Kill 1 (js "SIGTERM"); Spawn 2]
  /\ active (effects st) = [2] /\ viteProcess st = Some 2.
Proof. vm_compute. repeat split. Qed.

End SupervisorFacts.

(** ** Regular expressions: the derivative test is the prefix match *)

Section RegexFacts.

Implicit Types (r : regex) (s : jstring) (c : N).

Lemma matches_nil_nullable r s : matches r s -> s = [] -> nullable r = true.
Proof.
  induction 1 as [ | p c Hp | r1 r2 s1 s2 _ IH1 _ IH2 | r1 r2 s _ IH | r1 r2 s _ IH
                 | r | r s1 s2 _ _ _ _ ]; intros Hnil; simpl; try done.
  - apply app_eq_nil in Hnil as [-> ->]. by rewrite IH1, IH2.
  - by rewrite IH.
  - rewrite IH; [apply orb_true_r | done].
Qed.

Lemma nullable_matches_nil r : nullable r = true -> matches r [].
Proof.
  induction r as [ | | p | r1 IH1 r2 IH2 | r1 IH1 r2 IH2 | r IH ]; simpl; try done.
  - intros _. constructor.
  - intros [H1 H2]%andb_true_iff. apply (m_seq r1 r2 [] []); auto.
  - intros [H1 | H2]%orb_true_iff; [apply m_alt_l | apply m_alt_r]; auto.
  - intros _. constructor.
Qed.

Lemma deriv_sound c r s : matches (deriv c r) s -> matches r (c :: s).
Proof.
  revert s. induction r as [ | | p | r1 IH1 r2 IH2 | r1 IH1 r2 IH2 | r IH ];
    intros s; simpl.
  - inversion 1.
  - inversion 1.
  - destruct (p c) eqn:Hp; inversion 1; subst. by constructor.
  - assert (forall t, matches (Seq (deriv c r1) r2) t -> matches (Seq r1 r2) (c :: t)) as Hseq.
    { intros t Ht. inversion Ht as [ | | ? ? s1 s2 H1 H2 | | | | ]; subst.
      apply (m_seq r1 r2 (c :: s1) s2); auto. }
    destruct (nullable r1) eqn:Hn; [|apply Hseq].
    inversion 1 as [ | | | ? ? ? Hl | ? ? ? Hr | | ]; subst; [by apply Hseq|].
    apply (m_seq r1 r2 [] (c :: s)); [by apply nullable_matches_nil | auto].
  - inversion 1; subst; [apply m_alt_l | apply m_alt_r]; auto.
  - inversion 1 as [ | | ? ? s1 s2 H1 H2 | | | | ]; subst.
    apply (m_star_app r (c :: s1) s2); auto.
Qed.

Lemma deriv_complete c r s0 :
  matches r s0 -> forall s, s0 = c :: s -> matches (deriv c r) s.
Proof.
  induction 1 as [ | p d Hp | r1 r2 s1 s2 H1 IH1 H2 IH2 | r1 r2 s0 _ IH | r1 r2 s0 _ IH
                 | r | r s1 s2 H1 IH1 H2 IH2 ]; intros s Heq; simpl; try done.
  - injection Heq as -> <-. rewrite Hp. constructor.
  - destruct s1 as [|d s1]; simpl in Heq.
    + rewrite (matches_nil_nullable _ _ H1 eq_refl). apply m_alt_r. auto.
    + injection Heq as -> <-.
      assert (matches (Seq (deriv c r1) r2) (s1 ++ s2)) by (constructor; auto).
      destruct (nullable r1); [by apply m_alt_l | done].
  - apply m_alt_l. auto.
  - apply m_alt_r. auto.
  - destruct s1 as [|d s1]; simpl in Heq.
    + apply (IH2 s Heq).
    + injection Heq as -> <-. constructor; auto.
Qed.

Lemma test_spec r s :
  test r s = true <-> exists m rest, s = m ++ rest /\ matches r m.
Proof.
  revert r. induction s as [|c s IH]; intros r; simpl.
  - rewrite orb_false_r. split.
    + intros Hn. exists [], []. split; [done | by apply nullable_matches_nil].
    + intros (m & rest & Heq & Hm). symmetry in Heq.
      apply app_eq_nil in Heq as [-> _]. by eapply matches_nil_nullable.
  - rewrite orb_true_iff, IH. split.
    + intros [Hn | (m & rest & -> & Hm)].
      * exists [], (c :: s). split; [done | by apply nullable_matches_nil].
      * exists (c :: m), rest. split; [done | by apply deriv_sound].
    + intros ([|d m] & rest & Heq & Hm).
      * left. by eapply matches_nil_nullable.
      * injection Heq as -> ->. right. exists m, rest.
        split; [done | by eapply deriv_complete].
Qed.

Lemma matches_class p s : matches (Class p) s <-> exists c, s = [c] /\ p c = true.
Proof.
  split.
  - inversion 1; subst. eauto.
  - intros (c & -> & Hp). by constructor.
Qed.

Lemma matches_seq r1 r2 s :
  matches (Seq r1 r2) s <-> exists s1 s2, s = s1 ++ s2 /\ matches r1 s1 /\ matches r2 s2.
Proof.
  split.
  - inversion 1; subst. eauto.
  - intros (s1 & s2 & -> & H1 & H2). by constructor.
Qed.

Lemma matches_star_class_Forall p r s :
  matches r s -> r = Star (Class p) -> Forall (fun c => p c = true) s.
Proof.
  induction 1 as [ | | | | | r | r s1 s2 H1 _ H2 IH2 ]; intros Heq; try done.
  injection Heq as ->. apply matches_class in H1 as (c & -> & Hp).
  constructor; auto.
Qed.

Lemma matches_star_class p s :
  matches (Star (Class p)) s <-> Forall (fun c => p c = true) s.
Proof.
  split; [intros H; by eapply matches_star_class_Forall|].
  induction 1 as [|c s Hc _ IH]; [constructor|].
  apply (m_star_app _ [c] s); [by constructor | done].
Qed.

End RegexFacts.

(** ** Lines: [split] and [join] *)

Section Lines.

Implicit Types (s l : jstring) (ls : list jstring) (sep : N).

Lemma split_cons sep s : exists first rest, split sep s = first :: rest.
Proof.
  destruct s as [|c s]; simpl; [eauto|].
  destruct (c =? sep)%N; [eauto|]. destruct (split sep s); eauto.
Qed.

Lemma join_cons_cons sepstr l l' ls :
  join sepstr (l :: l' :: ls) = l ++ sepstr ++ join sepstr (l' :: ls).
Proof. done. Qed.

(** Joining the pieces gives the text back. *)
Lemma join_split sep s : join [sep] (split sep s) = s.
Proof.
  induction s as [|c s IH]; [done|]. cbn [split].
  destruct (split_cons sep s) as (f & r & Hs). rewrite Hs in *.
  destruct (N.eqb_spec c sep) as [->|Hne].
  - rewrite join_cons_cons. by rewrite IH.
  - destruct r as [|l' r]; simpl in *; by rewrite <- IH.
Qed.

(** No piece holds the separator. *)
Lemma split_no_sep sep s : Forall (fun l => sep ∉ l) (split sep s).
Proof.
  induction s as [|c s IH]; simpl.
  - constructor; [apply not_elem_of_nil | constructor].
  - destruct (N.eqb_spec c sep) as [->|Hne].
    + constructor; [apply not_elem_of_nil | done].
    + destruct (split sep s) as [|f r].
      { constructor; [|constructor].
        apply not_elem_of_cons. split; [congruence | apply not_elem_of_nil]. }
      apply Forall_cons in IH as [Hf Hr]. constructor; [|done].
      apply not_elem_of_cons. split; [congruence | done].
Qed.

Lemma split_piece sep l : sep ∉ l -> split sep l = [l].
Proof.
  induction l as [|c l IH]; [done|].
  intros [Hc Hl]%not_elem_of_cons. simpl.
  destruct (N.eqb_spec c sep) as [->|_]; [done|]. by rewrite IH.
Qed.

Lemma split_piece_sep sep l s :
  sep ∉ l -> split sep (l ++ sep :: s) = l :: split sep s.
Proof.
  induction l as [|c l IH]; simpl.
  - intros _. by rewrite N.eqb_refl.
  - intros [Hc Hl]%not_elem_of_cons.
    destruct (N.eqb_spec c sep) as [->|_]; [done|]. by rewrite IH.
Qed.

(** Splitting a joined list of separator-free pieces gives the pieces. *)
Lemma split_join sep ls :
  ls <> [] -> Forall (fun l => sep ∉ l) ls -> split sep (join [sep] ls) = ls.
Proof.
  induction ls as [|l ls IH]; [done|]. intros _ Hall.
  apply Forall_cons in Hall as [Hl Hls].
  destruct ls as [|l' ls]; [by apply split_piece|].
  rewrite join_cons_cons.
  etrans; [by apply (split_piece_sep sep l (join [sep] (l' :: ls)))|].
  by rewrite IH.
Qed.

Lemma join_truthy sepstr l ls : l <> [] -> truthy (join sepstr (l :: ls)) = true.
Proof. intros Hl. destruct l; [done|]. by destruct ls. Qed.

(** [[a, b].filter(Boolean).join("\n\n")] *)
Lemma join_nonempty_parts (a b : jstring) :
  join [LF; LF] (filter (fun s => truthy s = true) [a; b])
  = match a, b with
    | [], _ => b
    | _, [] => a
    | _, _ => a ++ [LF; LF] ++ b
    end.
Proof. by destruct a, b. Qed.

End Lines.

(** ** Text scrubber *)


Section Scrubber.

Implicit Types (l text : jstring).

Lemma matches_re_numbered m :
  matches re_numbered m <->
  exists ws ds ws',
    m = ws ++ ds ++ ws' ++ [124%N] /\
    Forall (fun c => is_space c = true) ws /\
    ds <> [] /\ Forall (fun c => is_digit c = true) ds /\
    Forall (fun c => is_space c = true) ws'.
Proof.
  unfold re_numbered, Plus, Lit. split.
  - intros (ws & m1 & -> & Hws & H1)%matches_seq.
    apply matches_seq in H1 as (dd & m2 & -> & Hdd & H2).
    apply matches_seq in Hdd as (d1 & ds & -> & Hd1 & Hds).
    apply matches_class in Hd1 as (d & -> & Hd).
    apply matches_seq in H2 as (ws' & bar & -> & Hws' & Hbar).
    apply matches_class in Hbar as (b & -> & <-%N.eqb_eq).
    exists ws, (d :: ds), ws'. split; [done|].
    split; [by apply matches_star_class|]. split; [done|].
    split; [|by apply matches_star_class].
    constructor; [done | by apply matches_star_class].
  - intros (ws & ds & ws' & -> & Hws & Hne & Hds & Hws').
    destruct ds as [|d ds]; [done|]. apply Forall_cons in Hds as [Hd Hds].
    apply m_seq; [by apply matches_star_class|].
    apply m_seq.
    + apply (m_seq _ _ [d] ds); [by constructor | by apply matches_star_class].
    + apply m_seq; [by apply matches_star_class|]. constructor. apply N.eqb_refl.
Qed.

Lemma matches_re_pointer m :
  matches re_pointer m <->
  exists ws, m = ws ++ [62%N] /\ Forall (fun c => is_space c = true) ws.
Proof.
  unfold re_pointer, Lit. split.
  - intros (ws & gt & -> & Hws & Hgt)%matches_seq.
    apply matches_class in Hgt as (b & -> & <-%N.eqb_eq).
    exists ws. split; [done | by apply matches_star_class].
  - intros (ws & -> & Hws).
    apply m_seq; [by apply matches_star_class|]. constructor. apply N.eqb_refl.
Qed.

(** The filter of [shrinkError] keeps exactly the codeframe lines. *)
Lemma is_codeframe_spec l : is_codeframe l = true <-> codeframe_line l.
Proof.
  unfold is_codeframe, codeframe_line. rewrite orb_true_iff, !test_spec. split.
  - intros [(m & rest & -> & Hm) | (m & rest & -> & Hm)].
    + apply matches_re_numbered in Hm as (ws & ds & ws' & -> & Hrest).
      left. exists ws, ds, ws', rest. split; [|done]. by rewrite <- !app_assoc.
    + apply matches_re_pointer in Hm as (ws & -> & Hws).
      right. exists ws, rest. split; [|done]. by rewrite <- !app_assoc.
  - intros [(ws & ds & ws' & rest & -> & Hrest) | (ws & rest & -> & Hws)].
    + left. exists (ws ++ ds ++ ws' ++ [124%N]), rest.
      split; [by rewrite <- !app_assoc|]. apply matches_re_numbered. eauto 10.
    + right. exists (ws ++ [62%N]), rest.
      split; [by rewrite <- !app_assoc|]. apply matches_re_pointer. eauto.
Qed.

Lemma is_digit_not_space c : is_digit c = true -> is_space c = false.
Proof.
  unfold is_digit, is_space.
  intros [H1%N.leb_le H2%N.leb_le]%andb_true_iff.
  repeat (apply orb_false_intro);
    try (apply N.eqb_neq; lia);
    apply andb_false_iff;
    first [left; apply N.leb_gt; lia | right; apply N.leb_gt; lia].
Qed.

(** The first code unit after the leading white space is determined by the
    line. *)
Lemma first_nonspace ws ws' a b r r' :
  Forall (fun c => is_space c = true) ws ->
  Forall (fun c => is_space c = true) ws' ->
  is_space a = false -> is_space b = false ->
  ws ++ a :: r = ws' ++ b :: r' -> a = b.
Proof.
  intros Hws. revert ws'.
  induction Hws as [|c ws Hc _ IH]; intros ws' Hws' Ha Hb Heq.
  - destruct Hws' as [|c' ws' Hc' _]; simpl in Heq; [congruence|].
    injection Heq as -> _. congruence.
  - destruct Hws' as [|c' ws' Hc' Hws']; simpl in Heq.
    + injection Heq as -> _. congruence.
    + injection Heq as _ Heq. by eapply IH.
Qed.

Lemma stack_frame_not_codeframe l : stack_frame_line l -> is_codeframe l = false.
Proof.
  intros (ws & rest & -> & Hws). apply not_true_is_false.
  intros [(ws' & ds & ws'' & rest' & Heq & Hws' & Hne & Hds & _)
         | (ws' & rest' & Heq & Hws')]%is_codeframe_spec.
  - destruct ds as [|d ds]; [done|]. apply Forall_cons in Hds as [Hd _].
    assert (97%N = d) as <-; [|done].
    eapply (first_nonspace ws ws'); [done | done | done | | exact Heq].
    by apply is_digit_not_space.
  - assert (97%N = 62%N); [|done].
    by eapply (first_nonspace ws ws'); [| | | | exact Heq].
Qed.

Lemma codeframe_line_nonempty l : is_codeframe l = true -> l <> [].
Proof. by intros H ->. Qed.

End Scrubber.

Section ScrubberResult.

Implicit Types (l text : jstring).

Lemma shrinkError_unfold text (first block : jstring) :
  first = hd [] (split LF text) ->
  block = join [LF] (filter (fun l => is_codeframe l = true) (split LF text)) ->
  shrinkError (RawString text)
  = match first, block with
    | [], _ => block
    | _, [] => first
    | _, _ => first ++ [LF; LF] ++ block
    end.
Proof. intros -> ->. unfold shrinkError. cbn [error_text]. apply join_nonempty_parts. Qed.

Lemma frame_no_LF text :
  Forall (fun l => LF ∉ l) (filter (fun l => is_codeframe l = true) (split LF text)).
Proof.
  apply Forall_forall. intros l [_ Hl]%list_elem_of_filter.
  revert l Hl. apply Forall_forall, split_no_sep.
Qed.

Lemma frame_block_truthy text :
  filter (fun l => is_codeframe l = true) (split LF text) <> [] ->
  join [LF] (filter (fun l => is_codeframe l = true) (split LF text)) <> [].
Proof.
  destruct (filter _ _) as [|f fs] eqn:Hf; [done|]. intros _.
  assert (is_codeframe f = true) as Hcf.
  { assert (f ∈ filter (fun l => is_codeframe l = true) (split LF text)) as Hin
      by (rewrite Hf; left).
    by apply list_elem_of_filter in Hin as [? _]. }
  apply codeframe_line_nonempty in Hcf.
  pose proof (join_truthy [LF] f fs Hcf) as Ht. by intros Heq; rewrite Heq in Ht.
Qed.

End ScrubberResult.

(** The claim as stated fails when the first line is empty: the codeframe
    block is returned alone, not joined to the first line by a blank line. *)
Lemma shrinkError_empty_first_line :
  let text := [LF] ++ js "1 | x" in
  split LF text = [[]; js "1 | x"] /\
  filter (fun l => is_codeframe l = true) (split LF text) = [js "1 | x"] /\
  shrinkError (RawString text) = js "1 | x" /\
  shrinkError (RawString text)
  <> hd [] (split LF text) ++ [LF; LF]
     ++ join [LF] (filter (fun l => is_codeframe l = true) (split LF text)).
Proof. vm_compute. repeat split. discriminate. Qed.

(** C7 (amended). [shrinkError] splits the text into lines at line feeds.
    Without a codeframe line the result is the first line.  With codeframe
    lines and a first line that is not empty, the result is the first line,
    a blank line and the codeframe lines, one per line; its lines are the
    first line, an empty line and the codeframe lines, so every other line
    is dropped.  With codeframe lines and an empty first line, the result is
    the codeframe lines alone.  The codeframe lines are the lines that start,
    after optional white space, with a line number, optional white space and
    a pipe, or with a greater-than sign; a stack-frame line [at ...] is never
    one of them. *)
Theorem shrinkError_spec (text : jstring) :
  let lines := split LF text in
  let first := hd [] lines in
  let frame := filter (fun l => is_codeframe l = true) lines in
  let result := shrinkError (RawString text) in
  join [LF] lines = text /\
  (exists rest, lines = first :: rest) /\
  (forall l, l ∈ frame <-> l ∈ lines /\ codeframe_line l) /\
  (forall l, stack_frame_line l -> l ∉ frame) /\
  (frame = [] -> result = first) /\
  (frame <> [] -> first <> [] ->
   result = first ++ [LF; LF] ++ join [LF] frame /\
   split LF result = first :: [] :: frame) /\
  (frame <> [] -> first = [] ->
   result = join [LF] frame /\ split LF result = frame).
Proof.
  intros lines first frame result.
  assert (exists rest, lines = first :: rest) as Hfirst.
  { subst first lines. destruct (split_cons LF text) as (f & r & ->). eauto. }
  assert (LF ∉ first) as HfirstLF.
  { destruct Hfirst as [rest Hrest]. pose proof (split_no_sep LF text) as Hall.
    fold lines in Hall. rewrite Hrest in Hall. by apply Forall_cons in Hall as [? _]. }
  split; [apply join_split|]. split; [done|]. split.
  { intros l. subst frame. rewrite list_elem_of_filter, is_codeframe_spec. tauto. }
  split.
  { intros l Hsf [Hcf _]%list_elem_of_filter.
    by rewrite (stack_frame_not_codeframe l Hsf) in Hcf. }
  subst result.
  rewrite (shrinkError_unfold text first (join [LF] frame) eq_refl eq_refl).
  split; [|split].
  - intros ->. simpl. by destruct first.
  - intros Hframe Hne. pose proof (frame_block_truthy text Hframe) as Hblock.
    fold lines frame in Hblock.
    destruct first as [|c first'] eqn:Hf; [done|].
    destruct (join [LF] frame) as [|b block] eqn:Hj; [done|].
    split; [done|]. rewrite <- Hj.
    destruct frame as [|f fs] eqn:Hfr; [done|].
    change ((c :: first') ++ [LF; LF] ++ join [LF] (f :: fs))
      with (join [LF] ((c :: first') :: [] :: f :: fs)).
    apply split_join; [done|].
    constructor; [done|]. constructor; [apply not_elem_of_nil|].
    rewrite <- Hfr. apply frame_no_LF.
  - intros Hframe ->. split; [done|].
    apply split_join; [done | apply frame_no_LF].
Qed.

Lemma shrinkError_spec_witness :
  let text := js "Error: boom" ++ [LF] ++ js "  12 | let x" ++ [LF]
              ++ js "    at f (a.js:1:2)" ++ [LF] ++ js "> 13 | y" in
  split LF (shrinkError (RawString text))
  = [js "Error: boom"; []; js "  12 | let x"; js "> 13 | y"].
Proof.
  intros text.
  destruct (shrinkError_spec text) as (_ & _ & _ & _ & _ & Hboth & _).
  apply Hboth; vm_compute; discriminate.
Defined.

(** ** The [proxyRes] handler *)


Section ProxyResFacts.

Variable utf8_decode : list Byte.byte -> jstring.

Implicit Types (req : IncomingMessage) (proxyRes : ProxyRes)
  (chunks : list (list Byte.byte)) (hs : gmap jstring header_value).

Lemma status_or_200_preserves (sc : option Z) (s : Z) :
  sc = Some s -> s <> 0%Z -> status_or_200 sc = s.
Proof. intros -> Hs. unfold status_or_200. by destruct (Z.eqb_spec s 0). Qed.

Lemma piped_data proxyRes chunks :
  on_events utf8_decode proxyRes Piped (List.map Data chunks)
  = (Piped, List.map Write chunks).
Proof. induction chunks as [|c chunks IH]; [done|]. simpl. by rewrite IH. Qed.

Lemma buffering_data proxyRes acc chunks :
  on_events utf8_decode proxyRes (Buffering acc) (List.map Data chunks)
  = (Buffering (acc ++ chunks), []).
Proof.
  revert acc. induction chunks as [|c chunks IH]; intros acc; simpl.
  - by rewrite app_nil_r.
  - by rewrite IH, <- app_assoc.
Qed.

Lemma on_events_app proxyRes l evs1 evs2 :
  on_events utf8_decode proxyRes l (evs1 ++ evs2)
  = let '(l1, out1) := on_events utf8_decode proxyRes l evs1 in
    let '(l2, out2) := on_events utf8_decode proxyRes l1 evs2 in
    (l2, out1 ++ out2).
Proof.
  revert l. induction evs1 as [|ev evs1 IH]; intros l; simpl.
  - by destruct (on_events _ _ l evs2).
  - destruct (on_event _ _ l ev) as [l1 out1]. rewrite IH.
    destruct (on_events _ _ l1 evs1) as [l2 out2].
    destruct (on_events _ _ l2 evs2) as [l3 out3]. by rewrite app_assoc.
Qed.

(** The rewritten headers, key by key. *)
Lemma rewritten_headers_lookup hs (k : jstring) :
  rewritten_headers hs !! k =
  if decide (k = js "cache-control") then Some (HStr (js "no-store"))
  else if decide (k = js "content-type") then Some (HStr (js "text/html; charset=utf-8"))
  else if decide (k = js "content-length") then None
  else hs !! k.
Proof.
  unfold rewritten_headers.
  repeat case_decide; subst; simplify_map_eq; done.
Qed.

(** With lower-case upstream header names, no spelling of content-length
    survives. *)
Lemma rewritten_headers_no_content_length hs (k : jstring) :
  (forall name, is_Some (hs !! name) -> toLowerCase name = name) ->
  toLowerCase k = js "content-length" ->
  rewritten_headers hs !! k = None.
Proof.
  intros Hlower Hk. rewrite rewritten_headers_lookup.
  repeat case_decide; subst; try done.
  destruct (hs !! k) eqn:Hlook; [|done].
  exfalso. rewrite Hlower in Hk by eauto. done.
Qed.

End ProxyResFacts.

(** C3. A rewritten navigation response: nothing is written while the body
    arrives; at the end of the stream the head is written with headers that
    have no content-length, that have cache-control: no-store and
    content-type: text/html; charset=utf-8 whatever the upstream sent, and
    that keep every other upstream header; the status code is the upstream's;
    the body is the injected document. *)
Theorem rewritten_navigation_response
    (utf8_decode : list Byte.byte -> jstring)
    (req : IncomingMessage) (proxyRes : ProxyRes) (chunks : list (list Byte.byte)) :
  isNavigationRequest req = true ->
  url req <> js "/log-viewer.js" ->
  let hs := rewritten_headers (res_headers proxyRes) in
  respond utf8_decode req proxyRes (List.map Data chunks) = [] /\
  respond utf8_decode req proxyRes (List.map Data chunks ++ [EndOfStream])
  = [WriteHead (status_or_200 (statusCode proxyRes)) hs;
     EndWith (injectHeadTag (utf8_decode (concat chunks)))] /\
  hs !! js "content-length" = None /\
  hs !! js "cache-control" = Some (HStr (js "no-store")) /\
  hs !! js "content-type" = Some (HStr (js "text/html; charset=utf-8")) /\
  (forall k, k <> js "content-length" -> k <> js "cache-control" ->
             k <> js "content-type" -> hs !! k = res_headers proxyRes !! k) /\
  ((forall name, is_Some (res_headers proxyRes !! name) -> toLowerCase name = name) ->
   forall k, toLowerCase k = js "content-length" -> hs !! k = None) /\
  (forall s, statusCode proxyRes = Some s -> s <> 0%Z ->
             status_or_200 (statusCode proxyRes) = s).
Proof.
  intros Hnav Hurl hs.
  assert (proxyRes_handler req proxyRes = (Buffering [], [])) as Hstart.
  { unfold proxyRes_handler. rewrite Hnav.
    destruct (str_eqb (url req) (js "/log-viewer.js")) eqn:Hu; [|done].
    by apply str_eqb_eq in Hu. }
  unfold respond. rewrite Hstart.
  split; [by rewrite buffering_data|]. split.
  { rewrite on_events_app, buffering_data. done. }
  subst hs. rewrite !rewritten_headers_lookup.
  split; [done|]. split; [done|]. split; [done|]. split.
  { intros k H1 H2 H3. rewrite rewritten_headers_lookup. by repeat case_decide. }
  split.
  { intros Hlower k Hk. by apply rewritten_headers_no_content_length. }
  intros s Hs Hne. by apply status_or_200_preserves.
Qed.

Lemma rewritten_navigation_response_witness :
  let upstream :=
    {| statusCode := Some 404%Z;
       res_headers := {[ js "content-length" := HStr (js "12");
                         js "cache-control" := HStr (js "max-age=60") ]} |} in
  let page := [Byte.x3c; Byte.x70; Byte.x3e] in
  respond decode_ascii navigation_request upstream (List.map Data [page] ++ [EndOfStream])
  = [WriteHead 404 (rewritten_headers (res_headers upstream));
     EndWith (js "<p>" ++ [LF] ++ tag)].
Proof.
  intros upstream page.
  assert (isNavigationRequest navigation_request = true) as Hnav
    by (vm_compute; reflexivity).
  assert (url navigation_request <> js "/log-viewer.js") as Hurl
    by (vm_compute; discriminate).
  destruct (rewritten_navigation_response decode_ascii navigation_request upstream [page]
              Hnav Hurl) as (_ & Hend & _).
  exact Hend.
Defined.

(** The claim as stated fails for the companion script: a request for
    /log-viewer.js that is not a navigation is answered 404 with an empty
    body, whatever the upstream sent. *)
Lemma log_viewer_not_passed_through :
  let req := {| method := js "GET"; url := js "/log-viewer.js";
                originalUrl := js "/log-viewer.js";
                headers := {[ js "accept" := HStr (js "*/*") ]} |} in
  let upstream := {| statusCode := Some 200%Z;
                     res_headers := {[ js "content-type" := HStr (js "text/javascript") ]} |} in
  let chunk := [Byte.x61; Byte.x3b] in
  isNavigationRequest req = false /\
  respond decode_ascii req upstream [Data chunk; EndOfStream] = [SetStatusCode 404; End_] /\
  respond decode_ascii req upstream [Data chunk; EndOfStream]
  <> [WriteHead 200 (res_headers upstream); Write chunk; End_].
Proof. vm_compute. repeat split. discriminate. Qed.

(** C6 (amended). For a request that is not a navigation and does not ask
    for /log-viewer.js, the head is written at once with the upstream status
    code and the upstream headers as they are, every chunk of the body is
    written as it arrives, unchanged and in order, and the response ends
    with the stream: nothing is held back. *)
Theorem passthrough_response
    (utf8_decode : list Byte.byte -> jstring)
    (req : IncomingMessage) (proxyRes : ProxyRes) (chunks : list (list Byte.byte)) :
  isNavigationRequest req = false ->
  url req <> js "/log-viewer.js" ->
  respond utf8_decode req proxyRes []
  = [WriteHead (status_or_200 (statusCode proxyRes)) (res_headers proxyRes)] /\
  respond utf8_decode req proxyRes (List.map Data chunks)
  = WriteHead (status_or_200 (statusCode proxyRes)) (res_headers proxyRes)
    :: List.map Write chunks /\
  respond utf8_decode req proxyRes (List.map Data chunks ++ [EndOfStream])
  = WriteHead (status_or_200 (statusCode proxyRes)) (res_headers proxyRes)
    :: List.map Write chunks ++ [End_] /\
  (forall s, statusCode proxyRes = Some s -> s <> 0%Z ->
             status_or_200 (statusCode proxyRes) = s).
Proof.
  intros Hnav Hurl.
  assert (proxyRes_handler req proxyRes
          = (Piped, [WriteHead (status_or_200 (statusCode proxyRes)) (res_headers proxyRes)]))
    as Hstart.
  { unfold proxyRes_handler. rewrite Hnav.
    destruct (str_eqb (url req) (js "/log-viewer.js")) eqn:Hu; [|done].
    by apply str_eqb_eq in Hu. }
  unfold respond. rewrite Hstart.
  split; [done|]. split; [by rewrite piped_data|]. split.
  { by rewrite on_events_app, piped_data. }
  intros s Hs Hne. by apply status_or_200_preserves.
Qed.

Lemma passthrough_response_witness :
  let req := {| method := js "GET"; url := js "/api/items";
                originalUrl := js "/api/items";
                headers := {[ js "accept" := HStr (js "application/json") ]} |} in
  let upstream := {| statusCode := Some 201%Z;
                     res_headers := {[ js "content-type" := HStr (js "application/json") ]} |} in
  respond decode_ascii req upstream
    (List.map Data [[Byte.x7b]; [Byte.x7d]] ++ [EndOfStream])
  = [WriteHead 201 (res_headers upstream); Write [Byte.x7b]; Write [Byte.x7d]; End_].
Proof.
  intros req upstream.
  assert (isNavigationRequest req = false) as Hnav by (vm_compute; reflexivity).
  assert (url req <> js "/log-viewer.js") as Hurl by (vm_compute; discriminate).
  destruct (passthrough_response decode_ascii req upstream [[Byte.x7b]; [Byte.x7d]]
              Hnav Hurl) as (_ & _ & Hend & _).
  exact Hend.
Defined.

(** ** Longest match and removal of all matches *)

Section RemoveAll.

Implicit Types (r : regex) (s m : jstring) (c : N).

Lemma matches_Lit c m : matches (Lit c) m <-> m = [c].
Proof.
  unfold Lit. rewrite matches_class. split.
  - by intros (d & -> & <-%N.eqb_eq).
  - intros ->. exists c. split; [done | apply N.eqb_refl].
Qed.

Lemma matches_literal s m : matches (literal s) m <-> m = s.
Proof.
  revert m. induction s as [|c s IH]; intros m; simpl.
  - split; [by inversion 1 | intros ->; constructor].
  - rewrite matches_seq. split.
    + intros (m1 & m2 & -> & ->%matches_Lit & ->%IH). done.
    + intros ->. exists [c], s. split; [done|]. split; [by apply matches_Lit | by apply IH].
Qed.

Lemma match_length_None r s : match_length r s = None <-> test r s = false.
Proof.
  revert r. induction s as [|c s IH]; intros r; simpl.
  - rewrite orb_false_r. by destruct (nullable r).
  - rewrite orb_false_iff, <- IH.
    destruct (match_length (deriv c r) s), (nullable r); intuition congruence.
Qed.

Lemma match_length_Some r s n :
  match_length r s = Some n ->
  exists m rest, s = m ++ rest /\ length m = n /\ matches r m.
Proof.
  revert r n. induction s as [|c s IH]; intros r n; simpl.
  - destruct (nullable r) eqn:Hn; [|done]. intros [= <-].
    exists [], []. split; [done|]. split; [done | by apply nullable_matches_nil].
  - destruct (match_length (deriv c r) s) as [k|] eqn:Hk.
    + intros [= <-]. destruct (IH _ _ Hk) as (m & rest & -> & <- & Hm).
      exists (c :: m), rest. split; [done|]. split; [done | by apply deriv_sound].
    + destruct (nullable r) eqn:Hn; [|done]. intros [= <-].
      exists [], (c :: s). split; [done|]. split; [done | by apply nullable_matches_nil].
Qed.

(** When the pattern has one matching prefix only, that is the one found. *)
Lemma match_length_unique r s m rest :
  s = m ++ rest -> matches r m ->
  (forall m' rest', s = m' ++ rest' -> matches r m' -> m' = m) ->
  match_length r s = Some (length m).
Proof.
  intros Hs Hm Huniq. destruct (match_length r s) as [n|] eqn:Hn.
  - destruct (match_length_Some _ _ _ Hn) as (m' & rest' & Hs' & <- & Hm').
    by rewrite (Huniq m' rest' Hs' Hm').
  - apply match_length_None in Hn.
    assert (test r s = true) as Ht by (apply test_spec; eauto). congruence.
Qed.

(** The code units of a match are left out. *)
Lemma remove_all_skip r m s : remove_all r (length m) (m ++ s) = remove_all r 0 s.
Proof. induction m as [|c m IH]; [done|]. simpl. apply IH. Qed.

(** Removal only deletes: the result is a subsequence of the text. *)
Lemma remove_all_sublist r k s : remove_all r k s `sublist_of` s.
Proof.
  revert k. induction s as [|c s IH]; intros k; [done|].
  cbn [remove_all]. destruct k as [|k]; [|by apply sublist_cons].
  destruct (match_length r (c :: s)) as [[|n]|];
    [by apply sublist_skip | by apply sublist_cons | by apply sublist_skip].
Qed.

(** A run of code units of one class, ended by a code unit outside the
    class, is determined by the text. *)
Lemma run_unique (p : N -> bool) run run' a b rest rest' :
  Forall (fun c => p c = true) run ->
  Forall (fun c => p c = true) run' ->
  p a = false -> p b = false ->
  run ++ a :: rest = run' ++ b :: rest' -> run = run'.
Proof.
  intros Hrun. revert run'.
  induction Hrun as [|c run Hc _ IH]; intros run' Hrun' Ha Hb Heq.
  - destruct Hrun' as [|c' run' Hc' _]; [done|].
    simpl in Heq. injection Heq as -> _. congruence.
  - destruct Hrun' as [|c' run' Hc' Hrun']; simpl in Heq.
    + injection Heq as -> _. congruence.
    + injection Heq as -> Heq. f_equal. by eapply IH.
Qed.

End RemoveAll.

(** ** [stripAnsi] *)

Section StripAnsi.

Implicit Types (s m a b ps : jstring).

Lemma matches_re_sgr m :
  matches re_sgr m <->
  exists ps, m = [ESC; 91%N] ++ ps ++ [109%N] /\
             Forall (fun c => is_sgr_param c = true) ps.
Proof.
  unfold re_sgr. split.
  - intros (e & m1 & -> & ->%matches_Lit & H1)%matches_seq.
    apply matches_seq in H1 as (br & m2 & -> & ->%matches_Lit & H2).
    apply matches_seq in H2 as (ps & fin & -> & Hps%matches_star_class & ->%matches_Lit).
    by exists ps.
  - intros (ps & -> & Hps).
    apply (m_seq _ _ [ESC]); [by apply matches_Lit|].
    apply (m_seq _ _ [91%N]); [by apply matches_Lit|].
    apply m_seq; [by apply matches_star_class | by apply matches_Lit].
Qed.

(** At one position the pattern has at most one match. *)
Lemma sgr_match_unique m m' rest rest' :
  matches re_sgr m -> matches re_sgr m' -> m ++ rest = m' ++ rest' -> m = m'.
Proof.
  intros (ps & -> & Hps)%matches_re_sgr (ps' & -> & Hps')%matches_re_sgr Heq.
  simpl in Heq. injection Heq as Heq. rewrite <- !app_assoc in Heq. simpl in Heq.
  by rewrite (run_unique is_sgr_param ps ps' 109%N 109%N _ _ Hps Hps' eq_refl eq_refl Heq).
Qed.

(** A match begins with the escape character and has no other one. *)
Lemma sgr_match_shape m :
  matches re_sgr m -> exists tl, m = ESC :: tl /\ ESC ∉ tl.
Proof.
  intros (ps & -> & Hps)%matches_re_sgr.
  exists (91%N :: ps ++ [109%N]). split; [done|].
  rewrite not_elem_of_cons. split; [done|].
  intros [Hin | Hin%list_elem_of_singleton]%elem_of_app; [|done].
  rewrite Forall_forall in Hps. by specialize (Hps _ Hin).
Qed.

Lemma sgr_no_match c s : c <> ESC -> match_length re_sgr (c :: s) = None.
Proof.
  intros Hc. apply match_length_None, not_true_is_false.
  intros (m & rest & Heq & Hm)%test_spec.
  apply sgr_match_shape in Hm as (tl & -> & _). by injection Heq as ->.
Qed.

Lemma sgr_match_here ps b :
  Forall (fun c => is_sgr_param c = true) ps ->
  match_length re_sgr ([ESC; 91%N] ++ ps ++ [109%N] ++ b) = Some (S (S (length ps + 1))).
Proof.
  intros Hps.
  assert (matches re_sgr ([ESC; 91%N] ++ ps ++ [109%N])) as Hm
    by (apply matches_re_sgr; eauto).
  rewrite (match_length_unique re_sgr _ ([ESC; 91%N] ++ ps ++ [109%N]) b).
  - simpl. by rewrite length_app.
  - by rewrite <- !app_assoc.
  - done.
  - intros m' rest' Heq Hm'. symmetry.
    apply (sgr_match_unique _ _ b rest' Hm Hm').
    rewrite <- Heq. by rewrite <- !app_assoc.
Qed.

(** Before an escape character, what follows does not change the match
    taken at an earlier position. *)
Lemma sgr_match_before_escape c a t :
  match_length re_sgr ((c :: a) ++ ESC :: t) = match_length re_sgr (c :: a).
Proof.
  destruct (match_length re_sgr (c :: a)) as [n|] eqn:Hn.
  - destruct (match_length_Some _ _ _ Hn) as (m & rest & Heq & <- & Hm).
    rewrite Heq, <- app_assoc.
    apply (match_length_unique re_sgr _ m (rest ++ ESC :: t)); [done | done |].
    intros m' rest' Heq' Hm'. symmetry.
    by apply (sgr_match_unique _ _ (rest ++ ESC :: t) rest' Hm Hm').
  - apply match_length_None, not_true_is_false.
    intros (m & rest & Heq & Hm)%test_spec.
    apply match_length_None in Hn.
    assert (test re_sgr (c :: a) = true); [|congruence].
    apply test_spec. exists m.
    apply app_eq_inv in Heq as [(k & Hk & _) | (k & Hk & Hk')].
    + by exists k.
    + destruct k as [|e k].
      { rewrite app_nil_r in Hk. subst m. exists []. by rewrite app_nil_r. }
      exfalso. injection Hk' as <- _.
      apply sgr_match_shape in Hm as (tl & -> & Hno).
      injection Hk as _ ->. apply Hno, elem_of_app. right. left.
Qed.

End StripAnsi.

Section StripAnsiResults.

Implicit Types (s a b ps : jstring).

Lemma remove_sgr_at_sequence ps b :
  Forall (fun c => is_sgr_param c = true) ps ->
  remove_all re_sgr 0 ([ESC; 91%N] ++ ps ++ [109%N] ++ b) = stripAnsi b.
Proof.
  intros Hps. pose proof (sgr_match_here ps b Hps) as Hlen.
  change ([ESC; 91%N] ++ ps ++ [109%N] ++ b) with (ESC :: 91%N :: ps ++ [109%N] ++ b) in *.
  cbn [remove_all]. rewrite Hlen. cbn [remove_all].
  rewrite app_assoc.
  replace (length ps + 1) with (length (ps ++ [109%N])) by (by rewrite length_app).
  apply remove_all_skip.
Qed.

Lemma remove_sgr_before_sequence k a ps b :
  k <= length a ->
  Forall (fun c => is_sgr_param c = true) ps ->
  remove_all re_sgr k (a ++ [ESC; 91%N] ++ ps ++ [109%N] ++ b)
  = remove_all re_sgr k a ++ stripAnsi b.
Proof.
  intros Hk Hps. revert k Hk. induction a as [|c a IH]; intros k Hk.
  - assert (k = 0) as -> by (simpl in Hk; lia). by apply remove_sgr_at_sequence.
  - destruct k as [|k].
    + change ((c :: a) ++ [ESC; 91%N] ++ ps ++ [109%N] ++ b)
        with (c :: a ++ [ESC; 91%N] ++ ps ++ [109%N] ++ b).
      cbn [remove_all].
      change (c :: a ++ [ESC; 91%N] ++ ps ++ [109%N] ++ b)
        with ((c :: a) ++ ESC :: 91%N :: ps ++ [109%N] ++ b).
      rewrite sgr_match_before_escape.
      destruct (match_length re_sgr (c :: a)) as [[|n]|] eqn:Hn.
      * simpl. f_equal. apply IH. lia.
      * apply IH. destruct (match_length_Some _ _ _ Hn) as (m & rest & Heq & Hlen & _).
        assert (length (c :: a) = length (m ++ rest)) as Hl by (by rewrite Heq).
        rewrite length_app in Hl. simpl in Hl. lia.
      * simpl. f_equal. apply IH. lia.
    + simpl. apply IH. simpl in Hk. lia.
Qed.

End StripAnsiResults.

(** X1. A text without the escape character is returned by [stripAnsi] as
    it is. *)
Theorem stripAnsi_plain (s : jstring) : ESC ∉ s -> stripAnsi s = s.
Proof.
  unfold stripAnsi. induction s as [|c s IH]; [done|].
  intros [Hc Hs]%not_elem_of_cons. cbn [remove_all].
  rewrite sgr_no_match by done. by rewrite IH.
Qed.

Lemma stripAnsi_plain_witness :
  stripAnsi (js "Error: boom at line 3") = js "Error: boom at line 3".
Proof.
  apply (stripAnsi_plain (js "Error: boom at line 3")).
  apply (bool_decide_unpack _). vm_compute. exact I.
Defined.

(** X2. An SGR escape sequence (escape, bracket, digits and semicolons, m)
    is removed, and the texts on its two sides are stripped independently of
    each other. *)
Theorem stripAnsi_sequence (a ps b : jstring) :
  Forall (fun c => is_sgr_param c = true) ps ->
  stripAnsi (a ++ [ESC; 91%N] ++ ps ++ [109%N] ++ b) = stripAnsi a ++ stripAnsi b.
Proof.
  intros Hps. unfold stripAnsi at 1 2. apply remove_sgr_before_sequence; [lia | done].
Qed.

Lemma stripAnsi_sequence_witness :
  stripAnsi (js "x " ++ [ESC; 91%N] ++ js "1;31" ++ [109%N] ++ js "red")
  = stripAnsi (js "x ") ++ stripAnsi (js "red").
Proof.
  apply (stripAnsi_sequence (js "x ") (js "1;31") (js "red")).
  repeat constructor.
Defined.

(** X3. [stripAnsi] only deletes code units: its result is a subsequence of
    its argument, and so never longer. *)
Theorem stripAnsi_only_deletes (s : jstring) :
  stripAnsi s `sublist_of` s /\ length (stripAnsi s) <= length s.
Proof.
  assert (stripAnsi s `sublist_of` s) as H by apply remove_all_sublist.
  split; [done | by apply sublist_length].
Qed.

Example stripAnsi_colored :
  stripAnsi ([ESC] ++ js "[31merror" ++ [ESC] ++ js "[0m: x" ++ [ESC] ++ js "[1;4;38;5;12m!")
  = js "error: x!".
Proof. vm_compute. reflexivity. Qed.

(** An escape sequence split by another one survives: stripping is not
    idempotent. *)
Example stripAnsi_nested :
  let s := [ESC] ++ js "[" ++ [ESC] ++ js "[0m" ++ js "0m" in
  stripAnsi s = [ESC] ++ js "[0m" /\ stripAnsi (stripAnsi s) = [].
Proof. vm_compute. split; reflexivity. Qed.

(** ** [extractChatId] *)

Section ChatId.

Implicit Types (m id rest host : jstring).

Lemma matches_re_preview m :
  matches re_preview m <->
  exists id, m = js "preview-" ++ id ++ [46%N] /\ id <> [] /\
             Forall (fun c => not_dot c = true) id.
Proof.
  unfold re_preview, Plus. split.
  - intros (pre & m1 & -> & ->%matches_literal & H1)%matches_seq.
    apply matches_seq in H1 as (run & dot & -> & Hrun & ->%matches_Lit).
    apply matches_seq in Hrun as (c1 & run' & -> & Hc1 & Hrun'%matches_star_class).
    apply matches_class in Hc1 as (c & -> & Hc).
    exists (c :: run'). split; [done|]. split; [done | by constructor].
  - intros (id & -> & Hne & Hid).
    destruct id as [|c id]; [done|]. apply Forall_cons in Hid as [Hc Hid].
    apply m_seq; [by apply matches_literal|].
    apply m_seq; [|by apply matches_Lit].
    apply (m_seq _ _ [c] id); [by constructor | by apply matches_star_class].
Qed.

Lemma take_while_run (p : N -> bool) run a rest :
  Forall (fun c => p c = true) run -> p a = false ->
  take_while p (run ++ a :: rest) = run.
Proof.
  intros Hrun Ha. induction Hrun as [|c run Hc _ IH]; simpl.
  - by rewrite Ha.
  - by rewrite Hc, IH.
Qed.

Lemma not_dot_Forall id : Forall (fun c => not_dot c = true) id <-> 46%N ∉ id.
Proof.
  rewrite Forall_forall. unfold not_dot. split.
  - intros H Hin. specialize (H _ Hin). by rewrite N.eqb_refl in H.
  - intros H c Hin. apply negb_true_iff, N.eqb_neq. by intros ->.
Qed.

End ChatId.

(** X4. [extractChatId] gives an identifier exactly when a host is stored,
    is not empty, and its lower-case form is [preview-], a non-empty text
    without a dot, a dot, and anything; the identifier is that text.  With no
    host stored, or an empty one, there is no identifier. *)
Theorem extractChatId_spec
    (lowercase : jstring -> jstring) (previewHost : option jstring) (id : jstring) :
  extractChatId lowercase previewHost = Some id <->
  exists host rest,
    previewHost = Some host /\ host <> [] /\
    lowercase host = js "preview-" ++ id ++ [46%N] ++ rest /\
    id <> [] /\ 46%N ∉ id.
Proof.
  unfold extractChatId. split.
  - destruct previewHost as [[|c host]|];
      cbn [unset truthy negb default from_option Datatypes.id];
      [intros [=] | | intros [=]].
    destruct (test re_preview (lowercase (c :: host))) eqn:Ht; [|done].
    apply test_spec in Ht as (m & rest & Hh & Hm).
    apply matches_re_preview in Hm as (id' & -> & Hne & Hid).
    rewrite Hh, <- !app_assoc, drop_app_length.
    change (id' ++ [46%N] ++ rest) with (id' ++ 46%N :: rest).
    rewrite (take_while_run not_dot id' 46%N rest Hid eq_refl).
    intros [= <-]. exists (c :: host), rest.
    split; [done|]. split; [done|]. split; [by rewrite Hh, <- !app_assoc|].
    split; [done | by apply not_dot_Forall].
  - intros (host & rest & -> & Hhost & Hh & Hne & Hid%not_dot_Forall).
    destruct host as [|c host]; [done|].
    cbn [unset truthy negb default from_option Datatypes.id].
    assert (test re_preview (lowercase (c :: host)) = true) as ->.
    { apply test_spec. exists (js "preview-" ++ id ++ [46%N]), rest.
      split; [by rewrite Hh, <- !app_assoc|]. apply matches_re_preview. eauto. }
    rewrite Hh, drop_app_length.
    change (id ++ [46%N] ++ rest) with (id ++ 46%N :: rest).
    by rewrite (take_while_run not_dot id 46%N rest Hid eq_refl).
Qed.

Example extractChatId_preview :
  extractChatId toLowerCase (Some (js "Preview-ABC123.example.dev")) = Some (js "abc123").
Proof. vm_compute. reflexivity. Qed.

Example extractChatId_other :
  extractChatId toLowerCase (Some (js "myapp.example.dev")) = None.
Proof. vm_compute. reflexivity. Qed.

Example extractChatId_empty_id :
  extractChatId toLowerCase (Some (js "preview-.example.dev")) = None.
Proof. vm_compute. reflexivity. Qed.

(** ** [trim] *)

Section Trim.

Implicit Types (s t : jstring) (c : N).

Lemma trimStart_decomp s :
  exists ws, s = ws ++ trimStart s /\ Forall (fun c => is_space c = true) ws.
Proof.
  induction s as [|c s (ws & IH & Hws)]; [by exists []|]. simpl.
  destruct (is_space c) eqn:Hc.
  - exists (c :: ws). split; [by rewrite IH at 1 | by constructor].
  - by exists [].
Qed.

Lemma trimStart_head s c t : trimStart s = c :: t -> is_space c = false.
Proof.
  induction s as [|d s IH]; [done|]. simpl.
  destruct (is_space d) eqn:Hd; [done|]. by intros [= <- _].
Qed.

Lemma trimStart_fixed s :
  (forall c t, s = c :: t -> is_space c = false) -> trimStart s = s.
Proof.
  destruct s as [|c s]; [done|]. intros H. simpl. by rewrite (H c s eq_refl).
Qed.

Lemma trimStart_snoc s c :
  is_space c = false -> exists t, trimStart (s ++ [c]) = t ++ [c].
Proof.
  intros Hc. induction s as [|d s IH]; simpl.
  - rewrite Hc. by exists [].
  - destruct (is_space d); [done|]. by exists (d :: s).
Qed.

Lemma trimStart_all_space s :
  trimStart s = [] <-> Forall (fun c => is_space c = true) s.
Proof.
  induction s as [|c s IH]; simpl; [done|].
  destruct (is_space c) eqn:Hc.
  - rewrite IH. split; [by constructor | by intros [_ ?]%Forall_cons].
  - split; [done|]. intros [? _]%Forall_cons. congruence.
Qed.

Lemma trimEnd_decomp s :
  exists ws, s = trimEnd s ++ ws /\ Forall (fun c => is_space c = true) ws.
Proof.
  unfold trimEnd. destruct (trimStart_decomp (rev s)) as (ws & Heq & Hws).
  exists (rev ws). split; [|by apply Forall_rev].
  rewrite <- rev_app_distr, <- Heq. by rewrite rev_involutive.
Qed.

Lemma trimEnd_last s t c : trimEnd s = t ++ [c] -> is_space c = false.
Proof.
  unfold trimEnd. intros H. apply (f_equal (@rev N)) in H.
  rewrite rev_involutive, rev_app_distr in H. simpl in H.
  by eapply trimStart_head.
Qed.

Lemma trimEnd_keeps_head c s :
  is_space c = false -> exists t, trimEnd (c :: s) = c :: t.
Proof.
  intros Hc. unfold trimEnd. simpl.
  destruct (trimStart_snoc (rev s) c Hc) as (t & ->).
  exists (rev t). by rewrite rev_app_distr.
Qed.

Lemma trimEnd_fixed s :
  (forall t c, s = t ++ [c] -> is_space c = false) -> trimEnd s = s.
Proof.
  intros H. unfold trimEnd. rewrite trimStart_fixed; [apply rev_involutive|].
  intros c t Hrev. apply (H (rev t) c).
  apply (f_equal (@rev N)) in Hrev. by rewrite rev_involutive in Hrev.
Qed.

(** The result of [trim] neither begins nor ends with white space. *)
Lemma trim_no_outer_space s : no_outer_space (trim s).
Proof.
  unfold trim. split.
  - intros c t Heq. destruct (trimStart s) as [|d u] eqn:Hs; [done|].
    pose proof (trimStart_head _ _ _ Hs) as Hd.
    destruct (trimEnd_keeps_head d u Hd) as (t' & Ht'). rewrite Ht' in Heq.
    by injection Heq as <- _.
  - intros t c. apply trimEnd_last.
Qed.

(** Such a text is left as it is. *)
Lemma trim_fixed s : no_outer_space s -> trim s = s.
Proof.
  intros [Hhead Hlast]. unfold trim. rewrite trimStart_fixed by done.
  by apply trimEnd_fixed.
Qed.

Lemma trim_idempotent s : trim (trim s) = trim s.
Proof. apply trim_fixed, trim_no_outer_space. Qed.

(** The text is the result of [trim] between two runs of white space. *)
Lemma trim_decomp s :
  exists ws1 ws2,
    s = ws1 ++ trim s ++ ws2 /\
    Forall (fun c => is_space c = true) ws1 /\
    Forall (fun c => is_space c = true) ws2.
Proof.
  destruct (trimStart_decomp s) as (ws1 & H1 & Hws1).
  destruct (trimEnd_decomp (trimStart s)) as (ws2 & H2 & Hws2).
  exists ws1, ws2. split; [|done]. unfold trim. by rewrite <- H2.
Qed.

Lemma trim_all_space s : trim s = [] <-> Forall (fun c => is_space c = true) s.
Proof.
  split.
  - intros Hnil. destruct (trim_decomp s) as (ws1 & ws2 & Heq & H1 & H2).
    rewrite Hnil in Heq. rewrite Heq. simpl. by apply Forall_app.
  - intros Hall%trimStart_all_space. unfold trim. by rewrite Hall.
Qed.

Lemma elem_of_trim c s : c ∈ trim s -> c ∈ s.
Proof.
  intros Hin. destruct (trim_decomp s) as (ws1 & ws2 & Heq & _).
  rewrite Heq, !elem_of_app. auto.
Qed.

End Trim.

(** ** The relay of the child's stderr *)

Section Relay.

Implicit Types (text block l : jstring).

(** The result of [shrinkError] when the first line is not empty. *)
Lemma shrinkError_nonempty_first text :
  hd [] (split LF text) <> [] ->
  shrinkError (RawString text)
  = hd [] (split LF text)
    ++ match filter (fun l => is_codeframe l = true) (split LF text) with
       | [] => []
       | frame => [LF; LF] ++ join [LF] frame
       end.
Proof.
  intros Hfirst.
  rewrite (shrinkError_unfold text _ _ eq_refl eq_refl).
  destruct (hd [] (split LF text)) as [|c first] eqn:Hhd; [done|].
  destruct (filter _ (split LF text)) as [|f fs] eqn:Hframe.
  - simpl. by rewrite app_nil_r.
  - assert (join [LF] (f :: fs) <> []) as Hblock.
    { rewrite <- Hframe. apply frame_block_truthy. by rewrite Hframe. }
    by destruct (join [LF] (f :: fs)).
Qed.

Lemma is_space_LF : is_space LF = true.
Proof. reflexivity. Qed.

Lemma first_line_nonempty c t :
  is_space c = false -> hd [] (split LF (c :: t)) <> [].
Proof.
  intros Hc. cbn [split]. destruct (N.eqb_spec c LF) as [->|_].
  - by rewrite is_space_LF in Hc.
  - by destruct (split LF t).
Qed.

(** A codeframe line begins with white space, a digit or a greater-than
    sign. *)
Lemma codeframe_first_unit c l :
  is_codeframe (c :: l) = true ->
  is_space c = true \/ is_digit c = true \/ c = 62%N.
Proof.
  intros [(ws & ds & ws' & rest & Heq & Hws & Hne & Hds & _)
         | (ws & rest & Heq & Hws)]%is_codeframe_spec.
  - destruct ws as [|w ws].
    + destruct ds as [|d ds]; [done|]. injection Heq as -> _.
      apply Forall_cons in Hds as [Hd _]. auto.
    + injection Heq as -> _. apply Forall_cons in Hws as [Hw _]. auto.
  - destruct ws as [|w ws].
    + injection Heq as -> _. auto.
    + injection Heq as -> _. apply Forall_cons in Hws as [Hw _]. auto.
Qed.

End Relay.

(** X5. The stderr listener relays nothing for a block of white space.  For
    any other block it relays one text: the block is trimmed, so its first
    line is not empty, and the text is [stripAnsi] of that first line,
    followed by a blank line and the codeframe lines when there are any. *)
Theorem on_stderr_data_relays
    (lowercase : jstring -> jstring) (previewHost : option jstring) (block : jstring) :
  (Forall (fun c => is_space c = true) block ->
   on_stderr_data lowercase previewHost block = None)
  /\
  (~ Forall (fun c => is_space c = true) block ->
   let lines := split LF (trim block) in
   let frame := filter (fun l => is_codeframe l = true) lines in
   hd [] lines <> [] /\
   on_stderr_data lowercase previewHost block
   = Some {| chatId := extractChatId lowercase previewHost;
             errorLogs :=
               [stripAnsi (hd [] lines
                           ++ match frame with
                              | [] => []
                              | _ => [LF; LF] ++ join [LF] frame
                              end)] |}).
Proof.
  unfold on_stderr_data, logErrors. split.
  - intros Hall%trim_all_space. by rewrite Hall.
  - intros Hnot. cbv zeta.
    destruct (trim block) as [|c t] eqn:Htrim.
    { exfalso. by apply Hnot, trim_all_space. }
    assert (is_space c = false) as Hc.
    { pose proof (trim_no_outer_space block) as [Hhead _]. rewrite Htrim in Hhead.
      by apply (Hhead c t). }
    pose proof (first_line_nonempty c t Hc) as Hfirst.
    split; [done|]. cbn [truthy negb].
    rewrite (shrinkError_nonempty_first (c :: t) Hfirst).
    by destruct (filter _ (split LF (c :: t))).
Qed.

Lemma on_stderr_data_relays_witness :
  let block := js "  Error: boom" ++ [LF] ++ js " 3 | x" ++ [LF] ++ js "    at f" ++ [LF] in
  on_stderr_data toLowerCase (Some (js "preview-abc.example.dev")) block
  = Some {| chatId := Some (js "abc");
            errorLogs := [js "Error: boom" ++ [LF; LF] ++ js " 3 | x"] |}.
Proof.
  intros block.
  assert (~ Forall (fun c => is_space c = true) block) as Hnot.
  { intros Hall%trim_all_space. vm_compute in Hall. discriminate. }
  destruct (proj2 (on_stderr_data_relays toLowerCase (Some (js "preview-abc.example.dev")) block)
              Hnot) as [_ Hrelay].
  rewrite Hrelay. vm_compute. reflexivity.
Defined.

(** The lines of the result of [shrinkError]. *)
Lemma shrinkError_lines (text : jstring) :
  split LF (shrinkError (RawString text))
  = match filter (fun l => is_codeframe l = true) (split LF text),
          hd [] (split LF text) with
    | [], first => [first]
    | frame, [] => frame
    | frame, first => first :: [] :: frame
    end.
Proof.
  pose proof (frame_no_LF text) as HnoLF.
  pose proof (split_no_sep LF text) as Hlines.
  assert (LF ∉ hd [] (split LF text)) as HfirstLF.
  { destruct (split LF text) as [|f r]; [apply not_elem_of_nil|].
    by apply Forall_cons in Hlines as [? _]. }
  destruct (hd [] (split LF text)) as [|c first] eqn:Hhd.
  - rewrite (shrinkError_unfold text [] _ (eq_sym Hhd) eq_refl).
    destruct (filter _ (split LF text)) as [|f fs] eqn:Hframe; [done|].
    by apply split_join.
  - assert (hd [] (split LF text) <> []) as Hne by (by rewrite Hhd).
    rewrite (shrinkError_nonempty_first text Hne), Hhd.
    destruct (filter _ (split LF text)) as [|f fs] eqn:Hframe.
    + rewrite app_nil_r. by apply split_piece.
    + change ((c :: first) ++ [LF; LF] ++ join [LF] (f :: fs))
        with (join [LF] ((c :: first) :: [] :: f :: fs)).
      apply split_join; [done|].
      constructor; [done|]. constructor; [apply not_elem_of_nil | done].
Qed.

(** X6. A line is a codeframe line only if it begins with white space, a
    digit or a greater-than sign.  So every line of the result of
    [shrinkError] after its first line is empty (the blank line) or begins
    with one of these: a line that begins with anything else, such as the
    escape character of a colour sequence, is kept only as the first line of
    the result. *)
Theorem shrinkError_later_lines_plain (text : jstring) :
  (forall c l,
      is_space c = false -> is_digit c = false -> c <> 62%N ->
      is_codeframe (c :: l) = false)
  /\
  (forall l,
      l ∈ tl (split LF (shrinkError (RawString text))) ->
      l = [] \/
      exists c t, l = c :: t /\ (is_space c = true \/ is_digit c = true \/ c = 62%N)).
Proof.
  split.
  { intros c l Hs Hd Hgt. apply not_true_is_false.
    intros [? | [? | ?]]%codeframe_first_unit; congruence. }
  intros l. rewrite shrinkError_lines.
  assert (forall l', l' ∈ filter (fun l => is_codeframe l = true) (split LF text) ->
            exists c t, l' = c :: t /\
              (is_space c = true \/ is_digit c = true \/ c = 62%N)) as Hframe.
  { intros l' [Hcf _]%list_elem_of_filter. destruct l' as [|c t]; [done|].
    exists c, t. split; [done | by eapply codeframe_first_unit]. }
  destruct (filter _ (split LF text)) as [|f fs]; [by intros ?%elem_of_nil|].
  cbv zeta. destruct (hd [] (split LF text)) as [|c first]; simpl.
  - intros Hin. right. apply Hframe. by right.
  - intros [-> | Hin]%elem_of_cons; [by left|]. right. by apply Hframe.
Qed.

Lemma shrinkError_later_lines_plain_witness :
  let coloured := [ESC] ++ js "[90m 37 |" ++ [ESC] ++ js "[39m foo()" in
  let text := js "Error: boom" ++ [LF] ++ coloured ++ [LF] ++ js " 38 | bar()" in
  is_codeframe coloured = false /\
  is_codeframe (stripAnsi coloured) = true /\
  split LF (shrinkError (RawString text)) = [js "Error: boom"; []; js " 38 | bar()"] /\
  (js " 38 | bar()" = [] \/
   exists c t, js " 38 | bar()" = c :: t /\
               (is_space c = true \/ is_digit c = true \/ c = 62%N)).
Proof.
  intros coloured text.
  destruct (shrinkError_later_lines_plain text) as [Hstart Hlater].
  assert (split LF (shrinkError (RawString text)) = [js "Error: boom"; []; js " 38 | bar()"])
    as Hlines by (vm_compute; reflexivity).
  split; [apply (Hstart ESC); [reflexivity | reflexivity | discriminate]|].
  split; [vm_compute; reflexivity|]. split; [exact Hlines|].
  apply Hlater. rewrite Hlines. simpl. right. left.
Defined.

(** X7. When the first line is itself a codeframe line it is emitted twice:
    once as the first line and once at the head of the codeframe block. *)
Theorem shrinkError_repeats_first_line (text : jstring) :
  let lines := split LF text in
  is_codeframe (hd [] lines) = true ->
  split LF (shrinkError (RawString text))
  = hd [] lines :: [] :: hd [] lines
      :: filter (fun l => is_codeframe l = true) (tl lines).
Proof.
  intros lines Hcf.
  pose proof (codeframe_line_nonempty _ Hcf) as Hfirst.
  rewrite (shrinkError_nonempty_first text Hfirst).
  pose proof (frame_no_LF text) as HnoLF.
  pose proof (split_no_sep LF text) as Hlines.
  fold lines in Hcf, Hfirst, HnoLF, Hlines |- *.
  destruct lines as [|first rest]; [done|]. cbn [hd tl] in *.
  rewrite filter_cons_True in * by done.
  apply Forall_cons in Hlines as [HfirstLF _].
  change (first ++ [LF; LF] ++ join [LF] (first :: filter (fun l => is_codeframe l = true) rest))
    with (join [LF] (first :: [] :: first :: filter (fun l => is_codeframe l = true) rest)).
  apply split_join; [done|].
  constructor; [done|]. constructor; [apply not_elem_of_nil | done].
Qed.

Lemma shrinkError_repeats_first_line_witness :
  split LF (shrinkError (RawString (js "> 1 | a" ++ [LF] ++ js "at f" ++ [LF] ++ js "  2 | b")))
  = [js "> 1 | a"; []; js "> 1 | a"; js "  2 | b"].
Proof.
  apply (shrinkError_repeats_first_line
           (js "> 1 | a" ++ [LF] ++ js "at f" ++ [LF] ++ js "  2 | b")).
  vm_compute. reflexivity.
Defined.

(** ** Access log *)

Section AccessLog.

Implicit Types (line : jstring).

Lemma shorten_short line : length line <= 80 -> shorten line = line.
Proof.
  intros H. unfold shorten. by destruct (Nat.ltb_spec 80 (length line)); [lia|].
Qed.

Lemma shorten_long line :
  80 < length line -> shorten line = take 79 line ++ [ellipsis].
Proof.
  intros H. unfold shorten. by destruct (Nat.ltb_spec 80 (length line)); [|lia].
Qed.

End AccessLog.

(** X8. The access log has a line exactly for the requests whose path starts
    with /api.  The line is never longer than 80 code units: a text of at
    most 80 code units is logged as it is, a longer one as its first 79 code
    units followed by an ellipsis. *)
Theorem access_log_line_spec
    (method reqPath status duration : jstring) (captured : option jstring) :
  let text := access_log_text method reqPath status duration captured in
  ((exists rest, reqPath = js "/api" ++ rest) ->
   exists line,
     access_log_line method reqPath status duration captured = Some line /\
     length line <= 80 /\
     (length text <= 80 -> line = text) /\
     (80 < length text -> line = take 79 text ++ [ellipsis] /\ length line = 80))
  /\
  (~ (exists rest, reqPath = js "/api" ++ rest) ->
   access_log_line method reqPath status duration captured = None).
Proof.
  intros text. unfold access_log_line. fold text. split.
  - intros Hapi%startsWith_spec. rewrite Hapi. exists (shorten text).
    split; [done|].
    destruct (Nat.le_gt_cases (length text) 80) as [Hshort | Hlong].
    + rewrite (shorten_short _ Hshort). split; [done|]. split; [done | lia].
    + rewrite (shorten_long _ Hlong).
      assert (length (take 79 text ++ [ellipsis]) = 80) as Hlen.
      { rewrite length_app, length_take. change (length [ellipsis]) with 1. lia. }
      split; [lia|]. split; [lia | done].
  - intros Hnot. destruct (startsWith reqPath (js "/api")) eqn:Hsw; [|done].
    by apply startsWith_spec in Hsw.
Qed.

Lemma access_log_line_spec_witness :
  exists line,
    access_log_line (js "POST") (js "/api/restart-frontend") (js "200") (js "12")
      (Some (js "{status:dev server restarted, with a long explanation attached}"))
    = Some line /\ length line <= 80.
Proof.
  destruct (proj1 (access_log_line_spec (js "POST") (js "/api/restart-frontend")
                     (js "200") (js "12")
                     (Some (js "{status:dev server restarted, with a long explanation attached}"))))
    as (line & Hline & Hlen & _).
  - by exists (js "/restart-frontend").
  - by exists line.
Defined.

Example access_log_shortened :
  access_log_line (js "POST") (js "/api/restart-frontend") (js "200") (js "12")
    (Some (js "{status:dev server restarted, with a long explanation attached}"))
  = Some (js "POST /api/restart-frontend 200 in 12ms :: {status:dev server restarted, with a " ++ [ellipsis]).
Proof. vm_compute. reflexivity. Qed.

(** ** The two proxy handlers together *)

Section ProxyHandlers.

Variable utf8_decode : list Byte.byte -> jstring.

Lemma detached_ignores proxyRes evs :
  on_events utf8_decode proxyRes Detached evs = (Detached, []).
Proof. induction evs as [|ev evs IH]; [done|]. simpl. by rewrite IH. Qed.

End ProxyHandlers.

(** X9. Identity encoding is asked of the upstream exactly for the requests
    whose response the [proxyRes] handler buffers and rewrites; for every
    other request the outgoing request is left as it is. *)
Theorem identity_encoding_iff_buffered
    (utf8_decode : list Byte.byte -> jstring)
    (req : IncomingMessage) (proxyRes : ProxyRes) :
  (proxyReq_handler req = [SetHeader (js "accept-encoding") (js "identity")] <->
   proxyRes_handler req proxyRes = (Buffering [], [])) /\
  (proxyReq_handler req = [] <->
   proxyRes_handler req proxyRes <> (Buffering [], [])).
Proof.
  unfold proxyReq_handler, proxyRes_handler.
  destruct (str_eqb (url req) (js "/log-viewer.js")), (isNavigationRequest req);
    simpl; split; split; try done; intros H; by try (exfalso; apply H).
Qed.

(** X10. A response to a request for /log-viewer.js is always answered 404
    with an empty body: nothing of the upstream response, neither its head
    nor any chunk of its body, reaches the client. *)
Theorem log_viewer_always_404
    (utf8_decode : list Byte.byte -> jstring)
    (req : IncomingMessage) (proxyRes : ProxyRes) (evs : list stream_event) :
  url req = js "/log-viewer.js" ->
  respond utf8_decode req proxyRes evs = [SetStatusCode 404; End_].
Proof.
  intros Hurl%str_eqb_eq. unfold respond, proxyRes_handler. rewrite Hurl.
  by rewrite detached_ignores.
Qed.

Lemma log_viewer_always_404_witness :
  respond decode_ascii
    {| method := js "GET"; url := js "/log-viewer.js"; originalUrl := js "/log-viewer.js";
       headers := navigation_headers |}
    {| statusCode := Some 200%Z; res_headers := ∅ |}
    [Data [Byte.x61]; Data [Byte.x62]; EndOfStream]
  = [SetStatusCode 404; End_].
Proof.
  apply (log_viewer_always_404 decode_ascii). reflexivity.
Defined.

(** ** More on the supervisor *)

Module SupervisorMore.
Import Supervisor SupervisorFacts.

(** X11. [stopDevServer] is idempotent: it leaves no child held, a second
    stop changes nothing and sends no second signal, and with no child held
    it does nothing at all. *)
Theorem stopDevServer_idempotent (st : state) :
  viteProcess (stopDevServer st) = None /\
  stopDevServer (stopDevServer st) = stopDevServer st /\
  (viteProcess st = None -> stopDevServer st = st) /\
  (forall child, viteProcess st = Some child ->
     effects (stopDevServer (stopDevServer st))
     = effects st ++ [Kill child (js "SIGTERM")]).
Proof.
  unfold stopDevServer. destruct (viteProcess st) as [c|] eqn:Hv; simpl.
  - repeat split; try done. intros child [= <-]. done.
  - rewrite Hv. repeat split; done.
Qed.

(** X12. [startDevServer] does not look at [viteProcess]: called while a
    child is held, it spawns a second child and forgets the first, which is
    left running without ever being signalled. *)
Theorem startDevServer_orphans (st : state) (child : nat) :
  supervised st ->
  viteProcess st = Some child ->
  effects (startDevServer st) = effects st ++ [Spawn (spawned st)] /\
  viteProcess (startDevServer st) = Some (spawned st) /\
  active (effects (startDevServer st)) = [child; spawned st] /\
  child <> spawned st /\
  active (effects (stopDevServer (startDevServer st))) = [child].
Proof.
  intros [Hact Hlt] Hv. rewrite Hv in Hact. simpl in Hact.
  assert (child < spawned st) as Hchild.
  { apply Hlt. rewrite Hact. by apply list_elem_of_singleton. }
  split; [done|]. split; [done|].
  assert (active (effects (startDevServer st)) = [child; spawned st]) as Hstart.
  { unfold startDevServer. simpl. by rewrite active_snoc_spawn, Hact. }
  split; [done|]. split; [lia|].
  unfold stopDevServer. cbn [viteProcess startDevServer effects].
  rewrite active_snoc_kill.
  change (effects st ++ [Spawn (spawned st)]) with (effects (startDevServer st)).
  rewrite Hstart.
  rewrite filter_cons_True by lia. by rewrite filter_cons_False by (intros H; by apply H).
Qed.

Lemma startDevServer_orphans_witness :
  active (effects (startDevServer (boot true))) = [0; 1].
Proof.
  destruct (startDevServer_orphans (boot true) 0 (supervised_boot true) eq_refl)
    as (_ & _ & Hactive & _).
  exact Hactive.
Defined.

Lemma spawned_restart st : spawned (restartDevServer st) = S (spawned st).
Proof. unfold restartDevServer, stopDevServer. by destruct (viteProcess st). Qed.

Lemma held_restart st : viteProcess (restartDevServer st) = Some (spawned st).
Proof. unfold restartDevServer, stopDevServer. by destruct (viteProcess st). Qed.

Lemma iter_restart_spawned (development : bool) (n : nat) :
  spawned (Nat.iter n restartDevServer (boot development))
  = n + (if development then 1 else 0).
Proof.
  induction n as [|n IH].
  - by destruct development.
  - by rewrite Nat.iter_succ, spawned_restart, IH.
Qed.

Lemma iter_restart_held (development : bool) (n : nat) :
  0 < n + (if development then 1 else 0) ->
  viteProcess (Nat.iter n restartDevServer (boot development))
  = Some (n + (if development then 1 else 0) - 1).
Proof.
  destruct n as [|n].
  - destruct development; simpl; [done | lia].
  - intros _. rewrite Nat.iter_succ, held_restart, iter_restart_spawned.
    f_equal. lia.
Qed.

(** X13. After the boot and any number of restarts, every child but the
    last has been sent a signal, and the last one is the one held: with [n]
    restarts, [n] children were spawned, and one more in development. *)
Theorem restarts_leave_one_child (development : bool) (n : nat) :
  let st := Nat.iter n restartDevServer (boot development) in
  let total := n + (if development then 1 else 0) in
  spawned st = total /\
  (0 < total -> viteProcess st = Some (total - 1) /\ active (effects st) = [total - 1]) /\
  (total = 0 -> viteProcess st = None /\ effects st = []).
Proof.
  intros st total. split; [apply iter_restart_spawned|]. split.
  - intros Hpos. pose proof (iter_restart_held development n Hpos) as Hheld.
    split; [done|]. destruct (supervised_reachable development n) as [Hact _].
    fold st in Hact. subst st. by rewrite Hact, Hheld.
  - intros Hzero. destruct n as [|n]; [|subst total; lia].
    destruct development; [subst total; simpl in Hzero; lia | done].
Qed.

Lemma stopDevServer_idempotent_witness :
  effects (stopDevServer (stopDevServer (boot true)))
  = [Spawn 0; Kill 0 (js "SIGTERM")].
Proof.
  destruct (stopDevServer_idempotent (boot true)) as (_ & _ & _ & Honce).
  apply (Honce 0 eq_refl).
Defined.

Lemma restarts_leave_one_child_witness :
  let st := Nat.iter 3 restartDevServer (boot true) in
  viteProcess st = Some 3 /\ active (effects st) = [3].
Proof.
  destruct (restarts_leave_one_child true 3) as (_ & Hpos & _).
  apply Hpos. simpl. lia.
Defined.

End SupervisorMore.

(** ** [parseGitignore] *)

Section Gitignore.

Implicit Types (line l raw : jstring) (ls : list jstring).

(** What [parseGitignore] keeps of a trimmed line. *)
Lemma kept_line line :
  truthy line && negb (startsWith line (js "#")) = true <->
  line <> [] /\ ~ (exists rest, line = js "#" ++ rest).
Proof.
  rewrite andb_true_iff, negb_true_iff. split.
  - intros [Ht Hs]. split; [by destruct line|].
    intros Hex%startsWith_spec. congruence.
  - intros [Hne Hno]. split; [by destruct line|].
    apply not_true_is_false. by intros H%startsWith_spec.
Qed.

Lemma map_fixed (f : jstring -> jstring) ls :
  Forall (fun l => f l = l) ls -> List.map f ls = ls.
Proof. induction 1 as [|l ls Hl _ IH]; [done|]. simpl. by rewrite Hl, IH. Qed.

Lemma filter_all (P : jstring -> Prop) `{!forall l, Decision (P l)} ls :
  Forall P ls -> filter P ls = ls.
Proof.
  induction 1 as [|l ls Hl _ IH]; [done|]. by rewrite filter_cons_True, IH.
Qed.

Lemma parseGitignore_elem raw line :
  line ∈ parseGitignore (Some raw) <->
  (exists l, l ∈ split LF raw /\ line = trim l) /\
  line <> [] /\ ~ (exists rest, line = js "#" ++ rest).
Proof.
  unfold parseGitignore. rewrite list_elem_of_filter, kept_line.
  rewrite list_elem_of_In, in_map_iff. split.
  - intros [Hkept (l & <- & Hin%list_elem_of_In)]. split; [by exists l | done].
  - intros [(l & Hin & ->) Hkept]. split; [done|]. exists l.
    split; [done | by apply list_elem_of_In].
Qed.

(** The entries are fixed by [parseGitignore]: a list of entries joined by
    line feeds parses to itself. *)
Lemma parseGitignore_join ls :
  Forall (fun line => (line <> [] /\ ~ (exists rest, line = js "#" ++ rest))
                      /\ trim line = line /\ LF ∉ line) ls ->
  parseGitignore (Some (join [LF] ls)) = ls.
Proof.
  intros Hall. unfold parseGitignore.
  destruct ls as [|l ls]; [done|].
  rewrite split_join; [|done|].
  - rewrite map_fixed.
    + apply filter_all. eapply Forall_impl; [exact Hall|].
      intros line [Hkept _]. by apply kept_line.
    + eapply Forall_impl; [exact Hall|]. by intros line (_ & ? & _).
  - eapply Forall_impl; [exact Hall|]. by intros line (_ & _ & ?).
Qed.

End Gitignore.

(** X14. Every entry that [parseGitignore] returns is a line of the file
    with the white space at its two ends removed; it is not empty, neither
    begins nor ends with white space, does not begin with a hash sign and
    holds no line feed.  When the file does not exist there is no entry. *)
Theorem parseGitignore_entries (file : option jstring) (line : jstring) :
  line ∈ parseGitignore file ->
  (exists raw l, file = Some raw /\ l ∈ split LF raw /\ line = trim l) /\
  line <> [] /\
  no_outer_space line /\
  ~ (exists rest, line = js "#" ++ rest) /\
  LF ∉ line.
Proof.
  destruct file as [raw|]; [|by intros ?%elem_of_nil].
  intros ((l & Hin & ->) & Hne & Hhash)%parseGitignore_elem.
  split; [by exists raw, l|]. split; [done|].
  split; [apply trim_no_outer_space|]. split; [done|].
  intros HLF%elem_of_trim.
  pose proof (split_no_sep LF raw) as Hall. rewrite Forall_forall in Hall.
  by apply (Hall l).
Qed.

Lemma parseGitignore_entries_witness :
  let raw := js "# build" ++ [LF] ++ js "  node_modules/  " ++ [LF] ++ [LF] ++ js ".env" in
  parseGitignore (Some raw) = [js "node_modules/"; js ".env"] /\
  no_outer_space (js "node_modules/").
Proof.
  intros raw.
  assert (parseGitignore (Some raw) = [js "node_modules/"; js ".env"]) as Hparse
    by (vm_compute; reflexivity).
  split; [done|].
  apply (parseGitignore_entries (Some raw) (js "node_modules/")).
  rewrite Hparse. left.
Defined.

(** X15. Writing the entries back, one per line, and parsing again gives the
    same entries. *)
Theorem parseGitignore_roundtrip (file : option jstring) :
  parseGitignore (Some (join [LF] (parseGitignore file))) = parseGitignore file.
Proof.
  apply parseGitignore_join, Forall_forall. intros line Hin.
  destruct file as [raw|]; [|by apply elem_of_nil in Hin].
  pose proof Hin as ((l & Hl & ->) & Hne & Hhash)%parseGitignore_elem.
  split; [done|]. split; [apply trim_idempotent|].
  intros HLF%elem_of_trim.
  pose proof (split_no_sep LF raw) as Hall. rewrite Forall_forall in Hall.
  by apply (Hall l).
Qed.

(** ** More on the injector *)

Section InjectorLength.

Lemma tag_length_pos : 0 < length tag.
Proof. vm_compute. lia. Qed.

Lemma injectHeadTag_length (html : jstring) :
  ~ contains html marker ->
  length (injectHeadTag html)
  = length html + length tag
    + (if includes html close_head || includes html close_body then 0 else 1).
Proof.
  intros Hm%includes_false. unfold injectHeadTag. rewrite Hm.
  destruct (includes html close_head) eqn:Hh.
  { apply includes_spec in Hh.
    destruct (insert_before_first _ _ Hh no_dollar_in_head_insert) as (b & a & Heq & _ & ->).
    cbn [orb]. rewrite Heq at 1. rewrite !length_app. lia. }
  destruct (includes html close_body) eqn:Hb.
  { apply includes_spec in Hb.
    destruct (insert_before_first _ _ Hb no_dollar_in_body_insert) as (b & a & Heq & _ & ->).
    cbn [orb]. rewrite Heq at 1. rewrite !length_app. lia. }
  cbn [orb]. rewrite !length_app. change (length [LF]) with 1. lia.
Qed.

End InjectorLength.

(** X16. [injectHeadTag] returns its argument unchanged exactly when the
    sentinel occurs in it.  Otherwise the result is longer by the length of
    the tag, and by one more code unit (the line feed) when neither closing
    tag occurs. *)
Theorem injectHeadTag_unchanged_iff (html : jstring) :
  (injectHeadTag html = html <-> contains html marker) /\
  (~ contains html marker ->
   length (injectHeadTag html)
   = length html + length tag
     + (if includes html close_head || includes html close_body then 0 else 1)).
Proof.
  split; [|apply injectHeadTag_length]. split; [|apply injectHeadTag_marked].
  intros Hfix. apply includes_spec. destruct (includes html marker) eqn:Hm; [done|].
  apply includes_false, injectHeadTag_length in Hm. rewrite Hfix in Hm.
  pose proof tag_length_pos. lia.
Qed.

Lemma injectHeadTag_unchanged_iff_witness :
  length (injectHeadTag (js "<body></body>")) = length (js "<body></body>") + length tag + 0.
Proof.
  apply (proj2 (injectHeadTag_unchanged_iff (js "<body></body>"))).
  apply includes_false. vm_compute. reflexivity.
Defined.

(** ** Session identity and chat identifier together *)

(** X17. The chat identifier sent with the logs follows the session
    identity: while no request has carried a non-empty Host there is none,
    and from the first request that carries one it is the identifier of that
    host, whatever requests come later. *)
Theorem chatId_follows_first_host
    (lowercase : jstring -> jstring)
    (earlier later : list IncomingMessage) (req : IncomingMessage) :
  Forall (fun r => host_or_empty r = []) earlier ->
  host_or_empty req <> [] ->
  extractChatId lowercase (previewHost_after None earlier) = None /\
  extractChatId lowercase (previewHost_after None (earlier ++ req :: later))
  = extractChatId lowercase (Some (host_or_empty req)).
Proof.
  intros Hearlier Hreq.
  pose proof (previewHost_after_unset None earlier eq_refl Hearlier) as Hu.
  split.
  - unfold extractChatId. by rewrite Hu.
  - f_equal. unfold previewHost_after in *. rewrite foldl_app. simpl.
    unfold previewHost_middleware at 2. rewrite Hu.
    by apply previewHost_after_keeps.
Qed.

Lemma chatId_follows_first_host_witness :
  let no_host := {| method := js "GET"; url := js "/"; originalUrl := js "/";
                    headers := ∅ |} in
  let host_a := {| method := js "GET"; url := js "/"; originalUrl := js "/";
                   headers := {[ js "host" := HStr (js "preview-a1.example.dev") ]} |} in
  let host_b := {| method := js "GET"; url := js "/"; originalUrl := js "/";
                   headers := {[ js "host" := HStr (js "preview-b2.example.dev") ]} |} in
  extractChatId toLowerCase (previewHost_after None ([no_host] ++ host_a :: [host_b]))
  = Some (js "a1").
Proof.
  intros no_host host_a host_b.
  destruct (chatId_follows_first_host toLowerCase [no_host] [host_b] host_a) as [_ Hid].
  - repeat constructor.
  - vm_compute. discriminate.
  - rewrite Hid. vm_compute. reflexivity.
Defined.
